(** * TGO-Earth occultations: coverage matcher, crossing detector, event aligner

    A shallow embedding of the three scripts of the repository

    - [OPSWeb_requester.py]        (module [OPSWeb]),
    - [Occ_times_spice_parallel.py] (module [Detector]),
    - [covered_occultations.py]     (module [Aligner]),

    together with the properties their specification states about them.

    Conventions.  A pandas [Timestamp] is a number of nanoseconds since the
    Unix epoch or [NaT]; a [Timedelta] is a number of nanoseconds or [NaT].
    A cell of an object column (a JSON value read from the event catalogue)
    is a string, a boolean or the missing value [NaN].  Ephemeris times and
    impact parameters, which are floating-point numbers in the scripts, are
    exact rationals here.  A Python exception is an explicit [Raise]. *)

From Stdlib Require Import ZArith QArith Qround Qabs List Bool String Lia Lqa Sorted.
From Stdlib Require Import Permutation SpecFloat.
Import ListNotations.

(** ** Values shared by the three scripts *)

Module Py.

(** Exceptions the modelled code can raise. *)
Inductive exn : Type :=
| ValueError
| ZeroDivisionError
| IndexError
| MergeError.

Inductive result (A : Type) : Type :=
| Ok (a : A)
| Raise (e : exn).
Arguments Ok {A} a.
Arguments Raise {A} e.

Definition bind {A B : Type} (r : result A) (k : A -> result B) : result B :=
  match r with
  | Ok a => k a
  | Raise e => Raise e
  end.

(** A cell of an object column. *)
Inductive cell : Type :=
| NaN
| Bool (b : bool)
| Str (s : string).

(** [x != s] for a string literal [s]: only the very same string compares
    equal; a boolean, a missing value or another spelling does not. *)
Definition cell_ne_str (c : cell) (s : string) : bool :=
  match c with
  | Str s' => negb (String.eqb s' s)
  | _ => true
  end.

(** [Series.isin(values)] for a list of string literals. *)
Definition isin (c : cell) (values : list string) : bool :=
  match c with
  | Str s => existsb (String.eqb s) values
  | _ => false
  end.

(** [Series.any()] of a boolean mask. *)
Definition any (mask : list bool) : bool := existsb (fun b => b) mask.

Inductive timestamp : Type :=
| NaT
| Ts (ns : Z).

(** A [Timedelta] has the same shape: nanoseconds or [NaT]. *)
Definition timedelta : Type := timestamp.

Definition ts_sub (t : timestamp) (d : timedelta) : timestamp :=
  match t, d with
  | Ts a, Ts b => Ts (a - b)
  | _, _ => NaT
  end.

Definition ts_add (t : timestamp) (d : timedelta) : timestamp :=
  match t, d with
  | Ts a, Ts b => Ts (a + b)
  | _, _ => NaT
  end.

(** [a <= b] on timestamps: a comparison with [NaT] is [False]. *)
Definition ts_leb (a b : timestamp) : bool :=
  match a, b with
  | Ts x, Ts y => (x <=? y)%Z
  | _, _ => false
  end.

(** [a >= b] *)
Definition ts_geb (a b : timestamp) : bool := ts_leb b a.

(** The order the comparisons decide. *)
Definition ts_le (a b : timestamp) : Prop :=
  match a, b with
  | Ts x, Ts y => (x <= y)%Z
  | _, _ => False
  end.

End Py.

(** ** Coverage matcher: [OPSWeb_requester.py] *)

Module OPSWeb.
Import Py.
Local Open Scope Z_scope.

(** One record of the [passes] query, with [time_start] and [time_end] as
    [pd.to_datetime] reads them and [owlt] as [pd.to_timedelta('00:' + owlt)]
    reads it. *)
Record pass_row : Type := mkPass {
  groundstation : cell;
  mspa : cell;
  time_start : timestamp;
  time_end : timestamp;
  owlt_delta : timedelta
}.

(** One record of the [occultations] query. *)
Record occ_row : Type := mkOcc {
  occ_time_start : timestamp;
  occ_time_end : timestamp
}.

Definition excluded_groundstations : list string := ["KLZ"%string; "BLK"%string].

(** [df_passes[~df_passes['groundstation'].isin(['KLZ', 'BLK'])]] *)
Definition drop_groundstations (df : list pass_row) : list pass_row :=
  filter (fun p => negb (isin (groundstation p) excluded_groundstations)) df.

(** [df_passes[df_passes['mspa'] != 'true']] *)
Definition drop_mspa (df : list pass_row) : list pass_row :=
  filter (fun p => cell_ne_str (mspa p) "true"%string) df.

(** The candidate set: the frame [df_passes] after the two filters. *)
Definition df_passes (passes : list pass_row) : list pass_row :=
  drop_mspa (drop_groundstations passes).

(** The light-time corrected columns. *)
Definition time_start_corr (p : pass_row) : timestamp :=
  ts_sub (time_start p) (owlt_delta p).
Definition time_end_corr (p : pass_row) : timestamp :=
  ts_sub (time_end p) (owlt_delta p).

(** [timedelta(minutes=10)], in nanoseconds. *)
Definition ten_minutes : Z := 10 * 60 * 1000000000.

Section Coverage.
(** The margin is the constant [ten_minutes] in the script; the loop body
    is stated for any margin. *)
Variable margin : Z.

Definition ing_start_req (occ : occ_row) : timestamp :=
  ts_sub (occ_time_start occ) (Ts margin).
Definition ing_end_req (occ : occ_row) : timestamp := occ_time_start occ.
Definition egr_start_req (occ : occ_row) : timestamp := occ_time_end occ.
Definition egr_end_req (occ : occ_row) : timestamp :=
  ts_add (occ_time_end occ) (Ts margin).

Definition mask_ing (df : list pass_row) (occ : occ_row) : list bool :=
  map (fun p => ts_leb (time_start_corr p) (ing_start_req occ)
                && ts_geb (time_end_corr p) (ing_end_req occ)) df.

Definition mask_egr (df : list pass_row) (occ : occ_row) : list bool :=
  map (fun p => ts_leb (time_start_corr p) (egr_start_req occ)
                && ts_geb (time_end_corr p) (egr_end_req occ)) df.

(** The test of the loop body: [mask_ing.any() and mask_egr.any()]. *)
Definition is_covered (df : list pass_row) (occ : occ_row) : bool :=
  any (mask_ing df occ) && any (mask_egr df occ).

(** The loop over [df_occ.iterrows()], appending to [covered]. *)
Definition covered (df : list pass_row) (df_occ : list occ_row)
  : list (timestamp * timestamp) :=
  fold_left
    (fun acc occ =>
       if is_covered df occ
       then acc ++ [(occ_time_start occ, occ_time_end occ)]
       else acc)
    df_occ [].
End Coverage.

(** The script: filter the passes, then run the loop with ten minutes. *)
Definition covered_script (passes : list pass_row) (df_occ : list occ_row)
  : list (timestamp * timestamp) :=
  covered ten_minutes (df_passes passes) df_occ.

(** The corrected interval of [p] contains [[lo, hi]]. *)
Definition contains (p : pass_row) (lo hi : timestamp) : Prop :=
  ts_le (time_start_corr p) lo /\ ts_le hi (time_end_corr p).

(** A pass the two filters of the script remove: a denylisted ground
    station, or an [mspa] cell that is the string ['true'] and nothing
    else. *)
Definition excluded (p : pass_row) : Prop :=
  groundstation p = Str "KLZ"%string \/
  groundstation p = Str "BLK"%string \/
  mspa p = Str "true"%string.



(** Scenario data: a KLZ pass and an ABC pass from 00:00 to 00:30 (minutes
    as nanoseconds), no light time, and the window 00:10--00:20. *)
Definition minutes (n : Z) : Z := n * 60 * 1000000000.
Definition klz_pass : pass_row :=
  mkPass (Str "KLZ"%string) NaN (Ts (minutes 0)) (Ts (minutes 30)) (Ts 0).
Definition abc_pass (m : cell) : pass_row :=
  mkPass (Str "ABC"%string) m (Ts (minutes 0)) (Ts (minutes 30)) (Ts 0).
Definition window_10_20 : occ_row := mkOcc (Ts (minutes 10)) (Ts (minutes 20)).

End OPSWeb.

(** ** Crossing detector: [Occ_times_spice_parallel.py] *)

Module Detector.
Import Py.
Local Open Scope Q_scope.

(** A SPICE call answers or raises [SpiceyError]. *)
Inductive spice (A : Type) : Type :=
| Answer (a : A)
| SpiceyError.
Arguments Answer {A} a.
Arguments SpiceyError {A}.

(** Sequencing inside the [try] block: the first error ends the block. *)
Definition andThen {A B : Type} (c : spice A) (k : A -> spice B) : spice B :=
  match c with
  | Answer a => k a
  | SpiceyError => SpiceyError
  end.

(** The ephemeris provider as the scan calls it, for the frame, the
    aberration corrections and the body identifiers the script fixes.
    [vec] is the type of position vectors.  The calls made inside the
    [try] block may raise; [reclat] and [lspcn], called on the detected
    crossings only, are taken to answer. *)
Record ephemeris (vec : Type) : Type := mkEphemeris {
  (** [spice.spkpos(gs_id, et, frame, 'CN+S', tgo_hga_id)[0]] *)
  spkpos_ray : string -> Q -> spice vec;
  (** [spice.tangpt('ELLIPSOID', 'MARS', et, ..., ray)], first component *)
  tangpt : Q -> vec -> spice vec;
  (** [np.linalg.norm] *)
  norm : vec -> Q;
  (** [spice.spkpos('SUN', et, frame, 'NONE', mars_id)[0]] *)
  spkpos_sun : Q -> spice vec;
  (** [np.rad2deg(spice.vsep(sun_vec, tanpt))] *)
  vsep_deg : vec -> vec -> Q;
  (** [spice.reclat], longitude and latitude converted to degrees *)
  reclat_deg : vec -> Q * Q;
  (** [np.degrees(spice.lspcn('MARS', t_et, 'LT+S'))] *)
  lspcn_deg : Q -> Q
}.
Arguments spkpos_ray {vec} _ _ _.
Arguments tangpt {vec} _ _ _.
Arguments norm {vec} _ _.
Arguments spkpos_sun {vec} _ _.
Arguments vsep_deg {vec} _ _ _.
Arguments reclat_deg {vec} _ _.
Arguments lspcn_deg {vec} _ _.

Definition MARS_RADIUS : Q := 3397515 # 1000.

(** [a > b] and [a <= b] on numbers. *)
Definition gtb (a b : Q) : bool := negb (Qle_bool a b).
Definition leb (a b : Q) : bool := Qle_bool a b.
Definition ltb (a b : Q) : bool := negb (Qle_bool b a).

(** [x % 360] *)
Definition mod360 (x : Q) : Q := x - 360 * inject_Z (Qfloor (x / 360)).

(** [np.arange(start, stop, step)] in exact arithmetic, for a positive
    step: the values [start, start + step, ...] of the half-open interval
    [[start, stop)].  [arange_steps] takes at most [fuel] steps; [arange]
    gives it the number of values of that interval.  This is the sequence
    the scan is stated on; the sequence NumPy builds from doubles, with
    its rounding, is [NumPy.arange] below. *)
Fixpoint arange_steps (fuel : nat) (cur stop step : Q) : list Q :=
  match fuel with
  | O => []
  | S fuel' =>
      if ltb cur stop
      then cur :: arange_steps fuel' (cur + step) stop step
      else []
  end.

Definition arange_len (start stop step : Q) : nat :=
  Z.to_nat (Qceiling ((stop - start) / step)).

Definition arange (start stop step : Q) : list Q :=
  arange_steps (arange_len start stop step) start stop step.

(** [executor.map(fn, iterable, chunksize)]: the iterable is cut into
    chunks, each chunk is evaluated by some worker process, and the
    results of the chunks are chained in the order of submission. *)
Fixpoint get_chunks {A : Type} (fuel : nat) (chunksize : nat) (l : list A)
  : list (list A) :=
  match fuel with
  | O => []
  | S fuel' =>
      match l with
      | [] => []
      | _ => firstn chunksize l :: get_chunks fuel' chunksize (skipn chunksize l)
      end
  end.

Definition process_chunk {A B : Type} (fn : A -> B) (chunk : list A) : list B :=
  map fn chunk.

Definition executor_map {A B : Type} (fn : A -> B) (iterable : list A)
           (chunksize : nat) : list B :=
  List.concat (map (process_chunk fn) (get_chunks (List.length iterable) chunksize iterable)).

Section Scan.
Context {vec : Type}.
Variable E : ephemeris vec.

(** A time sample: [(et, ip, tanpt, sza)]. *)
Definition sample : Type := (Q * Q * vec * Q)%type.

Definition sample_et (s : sample) : Q := let '(et, _, _, _) := s in et.
Definition sample_ip (s : sample) : Q := let '(_, ip, _, _) := s in ip.
Definition sample_tanpt (s : sample) : vec := let '(_, _, tanpt, _) := s in tanpt.
Definition sample_sza (s : sample) : Q := let '(_, _, _, sza) := s in sza.

(** The body of the [try] block. *)
Definition tangent_params_try (et : Q) (gs_id : string) : spice sample :=
  andThen (spkpos_ray E gs_id et) (fun ray =>
  andThen (tangpt E et ray) (fun tanpt =>
  let ip := norm E tanpt in
  andThen (spkpos_sun E et) (fun sun_vec =>
  let sza := vsep_deg E sun_vec tanpt in
  Answer (et, ip, tanpt, sza)))).

(** [except spice.stypes.SpiceyError: return None] *)
Definition compute_tangent_params (et : Q) (gs_id : string) : option sample :=
  match tangent_params_try et gs_id with
  | Answer s => Some s
  | SpiceyError => None
  end.

(** [[r for r in results if r]]: a 4-tuple is truthy, [None] is not. *)
Fixpoint keep_valid (results : list (option sample)) : list sample :=
  match results with
  | [] => []
  | Some r :: rest => r :: keep_valid rest
  | None :: rest => keep_valid rest
  end.

(** [a[:-1]] and [a[1:]] *)
Definition but_last {A : Type} (a : list A) : list A := removelast a.
Definition from_1 {A : Type} (a : list A) : list A := tl a.

(** Elementwise [&] of two comparisons of equally long arrays. *)
Definition ing_mask (radius : Q) (impact_params : list Q) : list bool :=
  map (fun ab => gtb (fst ab) radius && leb (snd ab) radius)
      (combine (but_last impact_params) (from_1 impact_params)).

Definition egr_mask (radius : Q) (impact_params : list Q) : list bool :=
  map (fun ab => leb (fst ab) radius && gtb (snd ab) radius)
      (combine (but_last impact_params) (from_1 impact_params)).

(** [np.where(mask)[0]]: the indices of the [True] entries, from [i]. *)
Fixpoint where_from (i : nat) (mask : list bool) : list nat :=
  match mask with
  | [] => []
  | b :: rest => if b then i :: where_from (S i) rest else where_from (S i) rest
  end.

(** [np.where(mask)[0] + 1] *)
Definition crossing_indices (mask : list bool) : list nat :=
  map S (where_from 0 mask).

(** A row of an event table: ET, longitude, latitude, SZA, Ls.  The UTC
    column the function adds is a rendering of the ET column. *)
Record event : Type := mkEvent {
  ET : Q;
  Longitude : Q;
  Latitude : Q;
  SZA : Q;
  Ls : Q
}.

(** [a[idx]] *)
Definition getitem {A : Type} (a : list A) (idx : nat) : result A :=
  match nth_error a idx with
  | Some x => Ok x
  | None => Raise IndexError
  end.

(** The inner loop: one row per crossing index. *)
Fixpoint crossing_rows (et_vals : list Q) (tanpts : list vec) (szas : list Q)
         (idxs : list nat) : result (list event) :=
  match idxs with
  | [] => Ok []
  | idx :: rest =>
      bind (getitem et_vals idx) (fun t_et =>
      bind (getitem tanpts idx) (fun tp =>
      let '(lon, lat) := reclat_deg E tp in
      bind (getitem szas idx) (fun sza =>
      let ls_deg := mod360 (lspcn_deg E t_et) in
      bind (crossing_rows et_vals tanpts szas rest) (fun out =>
      Ok (mkEvent t_et lon lat sza ls_deg :: out)))))
  end.

(** The reduction, from the list [valid] on.  Unzipping an empty [valid]
    yields nothing, and unpacking that into four names raises. *)
Definition reduce_crossings (radius : Q) (valid : list sample)
  : result (list event * list event) :=
  match valid with
  | [] => Raise ValueError
  | _ =>
      let et_vals := map sample_et valid in
      let impact_params := map sample_ip valid in
      let tanpts := map sample_tanpt valid in
      let szas := map sample_sza valid in
      bind (crossing_rows et_vals tanpts szas
              (crossing_indices (ing_mask radius impact_params)))
           (fun ingress =>
      bind (crossing_rows et_vals tanpts szas
              (crossing_indices (egr_mask radius impact_params)))
           (fun egress => Ok (ingress, egress)))
  end.

(** The scan over a given list of epochs. *)
Definition scan_results (gs_id : string) (et_list : list Q)
  : list (option sample) :=
  executor_map (fun et => compute_tangent_params et gs_id) et_list 500.

Definition scan_epochs (gs_id : string) (et_list : list Q)
  : result (list event * list event) :=
  reduce_crossings MARS_RADIUS (keep_valid (scan_results gs_id et_list)).

Definition find_occultations_parallel (gs_id : string) (start_et end_et step : Q)
  : result (list event * list event) :=
  scan_epochs gs_id (arange start_et end_et step).
End Scan.

(** The geometry of an epoch fails: one of the queries of the [try] block
    raises. *)
Definition geometry_fails {vec : Type} (E : ephemeris vec) (gs_id : string)
           (et : Q) : Prop :=
  spkpos_ray E gs_id et = SpiceyError \/
  exists ray, spkpos_ray E gs_id et = Answer ray /\
    (tangpt E et ray = SpiceyError \/ spkpos_sun E et = SpiceyError).

(** Scenario data.  [dark_ephemeris] never sees the body.  In
    [toy_ephemeris] a position vector is its own length, the impact
    parameter at [et] is [4000 * |et - 3|], and the epoch 1 has no geometry. *)
Definition dark_ephemeris : ephemeris unit :=
  mkEphemeris unit
    (fun _ _ => SpiceyError) (fun _ _ => SpiceyError) (fun _ => 0)
    (fun _ => SpiceyError) (fun _ _ => 0) (fun _ => (0, 0)) (fun _ => 0).

Definition toy_ephemeris : ephemeris Q :=
  mkEphemeris Q
    (fun _ et => if Qeq_bool et 1 then SpiceyError else Answer (4000 * Qabs (et - 3)))
    (fun _ ray => Answer ray)
    (fun v => v)
    (fun _ => Answer 0)
    (fun _ _ => 90)
    (fun v => (0, 0))
    (fun _ => 400).

End Detector.

(** ** [np.arange] on doubles *)

Module NumPy.
Local Open Scope Z_scope.

(** IEEE 754 binary64, with the operations rounded to nearest even. *)
Definition double : Type := spec_float.
Definition prec : Z := 53.
Definition emax : Z := 1024.
Definition add : double -> double -> double := SFadd prec emax.
Definition sub : double -> double -> double := SFsub prec emax.
Definition mul : double -> double -> double := SFmul prec emax.
Definition div : double -> double -> double := SFdiv prec emax.

(** The double of an integer, and the double nearest to [n / d]: the
    literal [0.1] is [decimal 1 10]. *)
Definition of_Z (z : Z) : double := binary_normalize prec emax z 0 false.

(** The rational number a finite double denotes. *)
Definition exact (x : double) : option Q :=
  match x with
  | S754_zero _ => Some 0%Q
  | S754_finite s m e =>
      let mag := if 0 <=? e then inject_Z (Zpos m * 2 ^ e)
                 else (Zpos m # Pos.pow 2 (Z.to_pos (- e))) in
      Some (if s then Qopp mag else mag)
  | S754_infinity _ => None
  | S754_nan => None
  end.

(** The ceiling of a double as an index; none for an infinity or a NaN,
    for which NumPy cannot compute a length. *)
Definition npy_ceil (x : double) : option Z :=
  match x with
  | S754_zero _ => Some 0
  | S754_finite s m e =>
      let up := if 0 <=? e then Zpos m * 2 ^ e
                else (Zpos m + 2 ^ (- e) - 1) / 2 ^ (- e) in
      let down := if 0 <=? e then Zpos m * 2 ^ e
                  else Zpos m / 2 ^ (- e) in
      Some (if s then - down else up)
  | S754_infinity _ => None
  | S754_nan => None
  end.

(** The fill loop: [buffer[i] = start + i * delta] from index [i] on. *)
Fixpoint fill (start delta : double) (i count : nat) : list double :=
  match count with
  | O => []
  | S count' =>
      add start (mul (of_Z (Z.of_nat i)) delta) :: fill start delta (S i) count'
  end.

(** [np.arange(start, stop, step)] on doubles: the length is the ceiling
    of the rounded quotient [(stop - start) / step], the first two values
    are [start] and [start + step], and the others are filled from the
    difference of these two.  A zero step, or a quotient that is not
    finite, raises: no array. *)
Definition arange (start stop step : double) : option (list double) :=
  if SFeqb step (S754_zero false) then None
  else
    match npy_ceil (div (sub stop start) step) with
    | None => None
    | Some len =>
        match Z.to_nat len with
        | O => Some []
        | S O => Some [start]
        | S (S count) =>
            let next := add start step in
            Some (start :: next :: fill start (sub next start) 2 count)
        end
    end.

End NumPy.

(** ** Event aligner: [covered_occultations.py] *)

Module Aligner.
Import Py.
Local Open Scope Z_scope.

(** A row of the derived table, with the columns the script selects. *)
Record spice_row : Type := mkSpice {
  Ingress_UTC : Z;
  Ingress_Lat : Q;
  Ingress_SZA : Q;
  Egress_UTC : timestamp;
  Egress_Lat : Q;
  Egress_SZA : Q
}.

(** A row of the reported table. *)
Record obsweb_row : Type := mkObsweb {
  ingress : Z;
  egress : Z
}.

(** ["2023-01-01"] and ["2025-01-01"], nanoseconds since the epoch. *)
Definition scope_lo : Z := 1672531200 * 1000000000.
Definition scope_hi : Z := 1735689600 * 1000000000.

(** The rows of the derived table in scope. *)
Definition in_scope (df : list spice_row) : list spice_row :=
  filter (fun r => (scope_lo <=? Ingress_UTC r) && (Ingress_UTC r <? scope_hi)) df.

(** [pd.Timedelta(seconds=60)] *)
Definition tolerance : Z := 60 * 1000000000.

(** [pd.merge_asof(left, right, direction='nearest', tolerance=tol)].
    Both key columns must be sorted, else [ValueError].  For each left key
    the join looks backward (the last right row of the leading run whose
    keys are at most the left key) and forward (the first right row of the
    trailing run whose keys are at least the left key), gives up either
    one when it is farther than [tol], and keeps the closer of the two,
    the backward one on a tie. *)
Fixpoint sortedb (keys : list Z) : bool :=
  match keys with
  | [] => true
  | k :: rest =>
      match rest with
      | [] => true
      | k' :: _ => (k <=? k') && sortedb rest
      end
  end.

Fixpoint scan_while (test : Z -> bool) (rows : list obsweb_row)
         (found : option obsweb_row) : option obsweb_row :=
  match rows with
  | [] => found
  | r :: rest => if test (ingress r) then scan_while test rest (Some r) else found
  end.

Definition within (tol : Z) (diff : Z) (found : option obsweb_row)
  : option obsweb_row :=
  if tol <? diff then None else found.

Definition asof_backward (tol : Z) (right : list obsweb_row) (key : Z)
  : option obsweb_row :=
  match scan_while (fun k => k <=? key) right None with
  | Some r => within tol (key - ingress r) (Some r)
  | None => None
  end.

Definition asof_forward (tol : Z) (right : list obsweb_row) (key : Z)
  : option obsweb_row :=
  match scan_while (fun k => key <=? k) (rev right) None with
  | Some r => within tol (ingress r - key) (Some r)
  | None => None
  end.

Definition asof_nearest (tol : Z) (right : list obsweb_row) (key : Z)
  : option obsweb_row :=
  match asof_backward tol right key, asof_forward tol right key with
  | Some rb, Some rf =>
      if (key - ingress rb) <=? (ingress rf - key) then Some rb else Some rf
  | Some rb, None => Some rb
  | None, f => f
  end.

Definition merge_asof (left : list spice_row) (right : list obsweb_row) (tol : Z)
  : result (list (spice_row * option obsweb_row)) :=
  if negb (sortedb (map Ingress_UTC left)) then Raise ValueError
  else if negb (sortedb (map ingress right)) then Raise ValueError
  else Ok (map (fun l => (l, asof_nearest tol right (Ingress_UTC l))) left).

(** [merged.dropna(subset=['ingress'])] *)
Fixpoint dropna (merged : list (spice_row * option obsweb_row))
  : list (spice_row * obsweb_row) :=
  match merged with
  | [] => []
  | (l, Some r) :: rest => (l, r) :: dropna rest
  | (_, None) :: rest => dropna rest
  end.

(** [a / b] on two lengths. *)
Definition truediv (a b : nat) : result Q :=
  match b with
  | O => Raise ZeroDivisionError
  | _ => Ok (inject_Z (Z.of_nat a) / inject_Z (Z.of_nat b))%Q
  end.

(** [coverage_pct = covered_occ / total_occ * 100] *)
Definition coverage_pct (covered_occ total_occ : nat) : result Q :=
  bind (truediv covered_occ total_occ) (fun q => Ok (q * 100)%Q).

(** The script on two tables whose key columns are timestamps: the scope
    filter, the join, the rows without a match dropped, the statistic. *)
Definition align_frames (spice_file : list spice_row) (df_obsweb : list obsweb_row)
  : result (list (spice_row * obsweb_row) * Q) :=
  let df_spice := in_scope spice_file in
  bind (merge_asof df_spice df_obsweb tolerance) (fun merged =>
  let merged := dropna merged in
  let spice_covered := map fst merged in
  let total_occ := List.length df_spice in
  let covered_occ := List.length spice_covered in
  bind (coverage_pct covered_occ total_occ) (fun pct => Ok (merged, pct))).

(** [pd.read_csv] of a file that has a header and no row leaves its date
    columns untyped. *)
Definition untyped {row : Type} (rows : list row) : bool :=
  match rows with
  | [] => true
  | _ :: _ => false
  end.

(** The script up to the statistic, from the rows of the two files: the
    aligned rows and the percentage.  The join refuses an untyped key
    column with [MergeError], before it looks at the order of the keys. *)
Definition align (spice_file : list spice_row) (df_obsweb : list obsweb_row)
  : result (list (spice_row * obsweb_row) * Q) :=
  if untyped spice_file || untyped df_obsweb then Raise MergeError
  else align_frames spice_file df_obsweb.

(** The reported rows in the order of their ingress. *)
Definition by_ingress (a b : obsweb_row) : Prop := ingress a <= ingress b.

(** The distance in time between a derived ingress and a reported row. *)
Definition distance (key : Z) (r : obsweb_row) : Z := Z.abs (key - ingress r).

(** What the backward and the forward search find in sorted rows, before
    the tolerance: the last row at or before the key, the first row at or
    after it. *)
Definition backward_found (key : Z) (right : list obsweb_row)
           (res : option obsweb_row) : Prop :=
  match res with
  | None => forall r, In r right -> key < ingress r
  | Some rb => In rb right /\ ingress rb <= key /\
               forall r, In r right -> ingress r <= key -> ingress r <= ingress rb
  end.

Definition forward_found (key : Z) (right : list obsweb_row)
           (res : option obsweb_row) : Prop :=
  match res with
  | None => forall r, In r right -> ingress r < key
  | Some rf => In rf right /\ key <= ingress rf /\
               forall r, In r right -> key <= ingress r -> ingress rf <= ingress r
  end.

(** Scenario data: derived and reported rows around 2024-01-01. *)
Definition t2024 : Z := 1704067200 * 1000000000.
Definition spice_at (t : Z) : spice_row := mkSpice t 0 0 NaT 0 0.
Definition obsweb_at (t : Z) : obsweb_row := mkObsweb t (t + tolerance).

End Aligner.

(** ** The requester script as a whole: [OPSWeb_requester.py] *)

Module Requester.
Import Py OPSWeb.
Local Open Scope Z_scope.

(** The script stops at the first missing column label. *)
Inductive checked (A : Type) : Type :=
| Done (a : A)
| KeyError (label : string).
Arguments Done {A} a.
Arguments KeyError {A} label.

Definition and_then {A B : Type} (c : checked A) (k : A -> checked B) : checked B :=
  match c with
  | Done a => k a
  | KeyError label => KeyError label
  end.

(** What [requests.get] hands back: the status and the decoded body. *)
Record response (A : Type) : Type := mkResponse {
  status_code : Z;
  json : list A
}.
Arguments mkResponse {A} _ _.
Arguments status_code {A} _.
Arguments json {A} _.

(** [opsw_request], from the response on. *)
Definition opsw_request {A : Type} (response : response A) : list A :=
  if negb (status_code response =? 200) then []
  else
    let data := json response in
    match data with
    | [] => []
    | _ => data
    end.

(** A data frame: its column labels and its rows.  [pd.DataFrame(records)]
    takes the labels from the records, so no record gives no column. *)
Record frame (row : Type) : Type := mkFrame {
  columns : list string;
  rows : list row
}.
Arguments mkFrame {row} _ _.
Arguments columns {row} _.
Arguments rows {row} _.

Definition DataFrame {row : Type} (fields : list string) (records : list row)
  : frame row :=
  match records with
  | [] => mkFrame [] []
  | _ => mkFrame fields records
  end.

Fixpoint check_labels {row : Type} (df : frame row) (labels : list string)
  : checked unit :=
  match labels with
  | [] => Done tt
  | label :: rest =>
      if existsb (String.eqb label) (columns df)
      then check_labels df rest
      else KeyError label
  end.

(** The order of a time column, missing values last.  The script sorts the
    columns as the catalogue writes them, ISO 8601 strings of one format,
    whose order as strings is the order of the times they denote. *)
Definition ts_ltb (a b : timestamp) : bool :=
  match a, b with
  | Ts x, Ts y => x <? y
  | Ts _, NaT => true
  | NaT, _ => false
  end.

(** The order of the keys [(time_end, time_start)]. *)
Definition key_leb (k1 k2 : timestamp * timestamp) : bool :=
  ts_ltb (fst k1) (fst k2)
  || (negb (ts_ltb (fst k2) (fst k1)) && negb (ts_ltb (snd k2) (snd k1))).

(** A stable sort: equal keys keep their order. *)
Fixpoint insert {row : Type} (leb : row -> row -> bool) (x : row) (l : list row)
  : list row :=
  match l with
  | [] => [x]
  | y :: rest => if leb x y then x :: l else y :: insert leb x rest
  end.

Fixpoint stable_sort {row : Type} (leb : row -> row -> bool) (l : list row)
  : list row :=
  match l with
  | [] => []
  | x :: rest => insert leb x (stable_sort leb rest)
  end.

(** [df.sort_values(by=['time_end', 'time_start']).reset_index(drop=True)] *)
Definition sort_values {row : Type} (key : row -> timestamp * timestamp)
           (by_labels : list string) (df : frame row) : checked (frame row) :=
  and_then (check_labels df by_labels) (fun _ =>
  Done (mkFrame (columns df)
                (stable_sort (fun a b => key_leb (key a) (key b)) (rows df)))).

Definition pass_key (p : pass_row) : timestamp * timestamp :=
  (time_end p, time_start p).
Definition occ_key (occ : occ_row) : timestamp * timestamp :=
  (occ_time_end occ, occ_time_start occ).

Definition pass_fields : list string :=
  ["groundstation"; "mspa"; "time_start"; "time_end"; "owlt"]%string.
Definition occ_fields : list string := ["time_start"; "time_end"]%string.
Definition sort_labels : list string := ["time_end"; "time_start"]%string.
Definition covered_labels : list string := ["ingress"; "egress"]%string.

(** The three tables the script prints and saves. *)
Record tables : Type := mkTables {
  valid_passes : list pass_row;
  all_occultations : list occ_row;
  covered_occultations : list (timestamp * timestamp)
}.

(** The script from the two responses to its tables: the two frames are
    built and sorted, the passes filtered, the loop run, and the columns
    ['ingress'] and ['egress'] of [df_covered] selected for formatting. *)
Definition script (passes_response : response pass_row)
           (occultations_response : response occ_row) : checked tables :=
  let passes := opsw_request passes_response in
  and_then (sort_values pass_key sort_labels (DataFrame pass_fields passes))
    (fun sorted_passes =>
  let df_passes := OPSWeb.df_passes (rows sorted_passes) in
  let occultations := opsw_request occultations_response in
  and_then (sort_values occ_key sort_labels (DataFrame occ_fields occultations))
    (fun df_occ =>
  let covered := OPSWeb.covered ten_minutes df_passes (rows df_occ) in
  let df_covered := DataFrame covered_labels covered in
  and_then (check_labels df_covered covered_labels) (fun _ =>
  Done (mkTables df_passes (rows df_occ) covered)))).

(** The key order as a relation. *)
Definition key_le (k1 k2 : timestamp * timestamp) : Prop := key_leb k1 k2 = true.

(** A pass tracks the instant [t]. *)
Definition tracks (p : pass_row) (t : Z) : Prop := contains p (Ts t) (Ts t).

(** A table is in the order of its keys. *)
Definition sorted_by {row : Type} (key : row -> timestamp * timestamp)
           (l : list row) : Prop :=
  StronglySorted (fun a b => key_le (key a) (key b)) l.

(** The key of a row [(ingress, egress)] of the covered table. *)
Definition covered_key (w : timestamp * timestamp) : timestamp * timestamp :=
  (snd w, fst w).

End Requester.

(** ** The output table of the detector and the meaning of its events *)

Module Table.
Import Py Detector.
Local Open Scope Q_scope.

(** [pd.concat([ing, eg], axis=1)] of two frames indexed from 0: row [k]
    holds the [k]-th row of each, and the shorter frame is padded. *)
Fixpoint concat_axis1 {A B : Type} (ing : list A) (eg : list B)
  : list (option A * option B) :=
  match ing with
  | [] => map (fun b => (None, Some b)) eg
  | a :: ing' =>
      match eg with
      | [] => map (fun a' => (Some a', None)) ing
      | b :: eg' => (Some a, Some b) :: concat_axis1 ing' eg'
      end
  end.

(** The main block, up to the text rendering of [df_wide]. *)
Definition df_wide {vec : Type} (E : ephemeris vec) (gs_id : string)
           (start_et end_et step : Q)
  : result (list (option event * option event)) :=
  bind (find_occultations_parallel E gs_id start_et end_et step) (fun dfs =>
  Ok (concat_axis1 (fst dfs) (snd dfs))).

(** The sample is at or below the radius. *)
Definition inside (radius : Q) (s_ip : Q) : bool := leb s_ip radius.

(** The event row the inner loop builds from a sample. *)
Definition event_of {vec : Type} (E : ephemeris vec) (s : @sample vec) : event :=
  mkEvent (sample_et s)
          (fst (reclat_deg E (sample_tanpt s)))
          (snd (reclat_deg E (sample_tanpt s)))
          (sample_sza s)
          (mod360 (lspcn_deg E (sample_et s))).

(** Two increasing index lists that take turns, the first one leading. *)
Inductive alternate : list nat -> list nat -> Prop :=
| alternate_nil : alternate [] []
| alternate_cons i xs ys :
    Forall (lt i) ys -> alternate ys xs -> alternate (i :: xs) ys.

End Table.

(** ** The statistic of the aligner, read as a count *)

Module Statistic.
Import Py Aligner.
Local Open Scope Z_scope.

(** Some reported event lies within [tol] of the key. *)
Definition near (tol : Z) (right : list obsweb_row) (key : Z) : bool :=
  existsb (fun r => distance key r <=? tol) right.

End Statistic.

(** * Properties *)

(** ** Coverage matcher *)

Module OPSWebProofs.
Import Py OPSWeb.
Local Open Scope Z_scope.

Lemma ts_leb_le a b : ts_leb a b = true <-> ts_le a b.
Proof.
  destruct a as [|x], b as [|y]; simpl; try (split; [discriminate | tauto]).
  apply Z.leb_le.
Qed.

Lemma any_map_exists {A} (f : A -> bool) (l : list A) :
  any (map f l) = true <-> exists x, In x l /\ f x = true.
Proof.
  unfold any. rewrite existsb_exists. split.
  - intros [b [Hb Ht]]. apply in_map_iff in Hb as [x [Hx Hin]].
    exists x. split; [exact Hin | congruence].
  - intros [x [Hin Hx]]. exists (f x). split; [now apply in_map | exact Hx].
Qed.

Lemma test_contains p lo hi :
  ts_leb (time_start_corr p) lo && ts_geb (time_end_corr p) hi = true
  <-> contains p lo hi.
Proof.
  unfold contains, ts_geb. rewrite andb_true_iff, !ts_leb_le. tauto.
Qed.

Lemma any_mask_ing margin df occ :
  any (mask_ing margin df occ) = true <->
  exists p, In p df /\
            contains p (ts_sub (occ_time_start occ) (Ts margin)) (occ_time_start occ).
Proof.
  unfold mask_ing. rewrite any_map_exists.
  split; intros [p [Hin Hp]]; exists p; (split; [exact Hin|]);
    apply test_contains; exact Hp.
Qed.

Lemma any_mask_egr margin df occ :
  any (mask_egr margin df occ) = true <->
  exists p, In p df /\
            contains p (occ_time_end occ) (ts_add (occ_time_end occ) (Ts margin)).
Proof.
  unfold mask_egr. rewrite any_map_exists.
  split; intros [p [Hin Hp]]; exists p; (split; [exact Hin|]);
    apply test_contains; exact Hp.
Qed.

(** The loop collects the windows that pass the test, in order. *)
Lemma covered_loop margin df df_occ acc :
  fold_left
    (fun acc occ =>
       if is_covered margin df occ
       then acc ++ [(occ_time_start occ, occ_time_end occ)]
       else acc)
    df_occ acc =
  acc ++ map (fun occ => (occ_time_start occ, occ_time_end occ))
             (filter (is_covered margin df) df_occ).
Proof.
  revert acc. induction df_occ as [|occ rest IH]; intros acc; simpl.
  - now rewrite app_nil_r.
  - rewrite IH. destruct (is_covered margin df occ); simpl.
    + now rewrite <- app_assoc.
    + reflexivity.
Qed.

Lemma covered_filter margin df df_occ :
  covered margin df df_occ =
  map (fun occ => (occ_time_start occ, occ_time_end occ))
      (filter (is_covered margin df) df_occ).
Proof. unfold covered. now rewrite covered_loop. Qed.

Lemma is_covered_spec (margin : Z) (df : list pass_row) (occ : occ_row) :
  is_covered margin df occ = true <->
  (exists p, In p df /\
             contains p (ts_sub (occ_time_start occ) (Ts margin))
                        (occ_time_start occ)) /\
  (exists q, In q df /\
             contains q (occ_time_end occ)
                        (ts_add (occ_time_end occ) (Ts margin))).
Proof.
  unfold is_covered.
  rewrite andb_true_iff, any_mask_ing, any_mask_egr. reflexivity.
Qed.

(** C1.  For every occultation window, every set of candidate passes and
    every margin, [is_covered] is true exactly when some pass has a
    corrected interval containing [[ingress - margin, ingress]] and some
    (possibly other) pass has a corrected interval containing
    [[egress, egress + margin]]; the loop of the script keeps exactly the
    windows of [df_occ] for which this holds with a margin of ten minutes. *)
Theorem is_covered_iff (margin : Z) (df : list pass_row) (occ : occ_row) :
  (is_covered margin df occ = true <->
   (exists p, In p df /\
              contains p (ts_sub (occ_time_start occ) (Ts margin))
                         (occ_time_start occ)) /\
   (exists q, In q df /\
              contains q (occ_time_end occ)
                         (ts_add (occ_time_end occ) (Ts margin)))) /\
  (forall df_occ,
     In (occ_time_start occ, occ_time_end occ) (covered margin df df_occ) <->
     exists occ', In occ' df_occ /\
                  occ_time_start occ' = occ_time_start occ /\
                  occ_time_end occ' = occ_time_end occ /\
                  is_covered margin df occ' = true).
Proof.
  split; [apply is_covered_spec|].
  intros df_occ. rewrite covered_filter, in_map_iff. split.
  - intros [occ' [Heq Hin]]. apply filter_In in Hin as [Hin Hc].
    injection Heq as H1 H2. exists occ'. tauto.
  - intros [occ' [Hin [H1 [H2 Hc]]]]. exists occ'. split.
    + now rewrite H1, H2.
    + apply filter_In. tauto.
Qed.

(** On timestamps that are not [NaT], containment is the comparison of
    the numbers. *)
Lemma contains_numbers gs m s e o lo hi :
  contains (mkPass gs m (Ts s) (Ts e) (Ts o)) (Ts lo) (Ts hi)
  <-> s - o <= lo /\ hi <= e - o.
Proof. reflexivity. Qed.

(** *** The exclusion rule *)

Local Open Scope string_scope.

Lemma in_df_passes p passes :
  In p (df_passes passes) <->
  In p passes /\
  isin (groundstation p) excluded_groundstations = false /\
  cell_ne_str (mspa p) "true" = true.
Proof.
  unfold df_passes, drop_mspa, drop_groundstations.
  rewrite !filter_In, negb_true_iff. tauto.
Qed.

Lemma cell_ne_str_true c s : cell_ne_str c s = true <-> c <> Str s.
Proof.
  destruct c as [|b|s']; simpl; try (split; [discriminate | reflexivity]).
  rewrite negb_true_iff. split.
  - intros H Heq. injection Heq as ->. now rewrite String.eqb_refl in H.
  - intros H. apply String.eqb_neq. congruence.
Qed.

Lemma isin_excluded c :
  isin c excluded_groundstations = true <->
  c = Str "KLZ" \/ c = Str "BLK".
Proof.
  destruct c as [|b|s]; simpl.
  - split; [discriminate | intros [H|H]; discriminate].
  - split; [discriminate | intros [H|H]; discriminate].
  - rewrite !orb_true_iff, !String.eqb_eq. split.
    + intros [->|[->|H]]; [now left | now right | discriminate].
    + intros [H|H]; injection H as ->; auto.
Qed.

Lemma cell_ne_str_false c s : cell_ne_str c s = false <-> c = Str s.
Proof.
  destruct c as [|b|s0]; simpl; try (split; discriminate).
  rewrite negb_false_iff, String.eqb_eq. split; congruence.
Qed.

Lemma excluded_iff p :
  excluded p <->
  isin (groundstation p) excluded_groundstations = true \/
  cell_ne_str (mspa p) "true" = false.
Proof.
  unfold excluded. rewrite isin_excluded, cell_ne_str_false. tauto.
Qed.

Lemma df_passes_not_excluded p passes :
  In p (df_passes passes) -> In p passes /\ ~ excluded p.
Proof.
  rewrite in_df_passes, excluded_iff. intros [Hin [Hg Hm]].
  split; [exact Hin|]. intros [H|H]; congruence.
Qed.




(** C10.  The multi-spacecraft-per-aperture filter removes only the
    passes whose [mspa] cell is the string ['true']: a pass of an
    admitted ground station stays in the candidate set exactly when its
    cell is anything else; a missing value, the boolean [True] and the
    spellings ['True'] and ['TRUE'] are kept, and a kept pass whose
    corrected interval contains both margin intervals makes the window
    covered. *)
Theorem mspa_filter_exact_string
        (margin : Z) (passes : list pass_row) (occ : occ_row) (p : pass_row)
        (Hin : In p passes)
        (Hgs : isin (groundstation p) excluded_groundstations = false) :
  (In p (df_passes passes) <-> mspa p <> Str "true") /\
  (mspa p = NaN \/ mspa p = Bool true \/ mspa p = Str "True" \/
   mspa p = Str "TRUE" -> In p (df_passes passes)) /\
  (mspa p <> Str "true" ->
   contains p (ts_sub (occ_time_start occ) (Ts margin)) (occ_time_start occ) ->
   contains p (occ_time_end occ) (ts_add (occ_time_end occ) (Ts margin)) ->
   is_covered margin (df_passes passes) occ = true).
Proof.
  assert (Hiff : In p (df_passes passes) <-> mspa p <> Str "true").
  { rewrite in_df_passes, cell_ne_str_true. tauto. }
  split; [exact Hiff|split].
  - intros H. apply Hiff.
    destruct H as [H|[H|[H|H]]]; rewrite H; discriminate.
  - intros Hne Hi He. apply is_covered_spec.
    split; exists p; (split; [now apply Hiff | assumption]).
Qed.

Lemma mspa_filter_exact_string_witness :
  is_covered ten_minutes (df_passes [abc_pass NaN]) window_10_20 = true.
Proof.
  refine (proj2 (proj2 (mspa_filter_exact_string ten_minutes [abc_pass NaN]
                          window_10_20 (abc_pass NaN) _ _)) _ _ _).
  - left. reflexivity.
  - reflexivity.
  - discriminate.
  - split; simpl; unfold minutes, ten_minutes; lia.
  - split; simpl; unfold minutes, ten_minutes; lia.
Defined.

(** The same pass with the other spellings of the flag. *)
Example mspa_spellings :
  map (fun m => is_covered ten_minutes (df_passes [abc_pass m]) window_10_20)
      [NaN; Bool true; Bool false; Str "True"; Str "TRUE"; Str "false"; Str "true"]
  = [true; true; true; true; true; true; false].
Proof. reflexivity. Qed.

(** The scenario of three passes: covered through the ABC pass only. *)
Example three_passes :
  let passes :=
    [ klz_pass;
      abc_pass (Str "false");
      mkPass (Str "ABC") (Str "false") (Ts (minutes 60)) (Ts (minutes 80)) (Ts 0) ] in
  df_passes passes = tl passes /\
  covered_script passes [window_10_20] = [(Ts (minutes 10), Ts (minutes 20))] /\
  covered_script [klz_pass] [window_10_20] = [].
Proof. repeat split. Qed.

End OPSWebProofs.


(** ** Crossing detector *)

Module DetectorProofs.
Import Py Detector.
Local Open Scope Q_scope.

(** *** Comparisons *)

Lemma ltb_lt a b : ltb a b = true <-> a < b.
Proof.
  unfold ltb. rewrite negb_true_iff. split.
  - intros H. apply Qnot_le_lt. intros Hle.
    apply Qle_bool_iff in Hle. congruence.
  - intros H. destruct (Qle_bool b a) eqn:E; [|reflexivity].
    apply Qle_bool_iff in E. exfalso. now apply (Qlt_not_le a b).
Qed.

Lemma ltb_ge a b : ltb a b = false <-> b <= a.
Proof.
  unfold ltb. rewrite negb_false_iff. apply Qle_bool_iff.
Qed.

Lemma gtb_leb a b : gtb a b = negb (leb a b).
Proof. reflexivity. Qed.

(** *** The ceiling *)

Lemma Qceiling_unique (y : Q) (z : Z) :
  inject_Z (z - 1) < y -> y <= inject_Z z -> Qceiling y = z.
Proof.
  intros Hlo Hhi.
  pose proof (Qle_ceiling y) as Hc1.
  pose proof (Qceiling_lt y) as Hc2.
  assert (H1 : (z - 1 < Qceiling y)%Z).
  { rewrite Zlt_Qlt. eapply Qlt_le_trans; eassumption. }
  assert (H2 : (Qceiling y - 1 < z)%Z).
  { rewrite Zlt_Qlt. eapply Qlt_le_trans; eassumption. }
  lia.
Qed.

Lemma Qceiling_succ (x : Q) : Qceiling (x + 1) = (Qceiling x + 1)%Z.
Proof.
  apply Qceiling_unique.
  - pose proof (Qceiling_lt x) as H.
    replace (Qceiling x + 1 - 1)%Z with (Qceiling x - 1 + 1)%Z by ring.
    rewrite inject_Z_plus. simpl (inject_Z 1).
    apply Qplus_lt_le_compat; [exact H | apply Qle_refl].
  - pose proof (Qle_ceiling x) as H.
    rewrite inject_Z_plus. simpl (inject_Z 1).
    apply Qplus_le_compat; [exact H | apply Qle_refl].
Qed.

Lemma Qceiling_nonpos (x : Q) : x <= 0 -> (Qceiling x <= 0)%Z.
Proof.
  intros H. change 0%Z with (Qceiling 0). now apply Qceiling_resp_le.
Qed.

Lemma Qceiling_pos (x : Q) : 0 < x -> (0 < Qceiling x)%Z.
Proof.
  intros H. rewrite Zlt_Qlt. eapply Qlt_le_trans; [exact H | apply Qle_ceiling].
Qed.

(** *** The epoch sequence *)

Section Arange.
Variables stop step : Q.
Hypothesis step_pos : 0 < step.

Lemma step_nonzero : ~ step == 0.
Proof. intros H. rewrite H in step_pos. now apply (Qlt_irrefl 0). Qed.

Lemma quotient_step (cur : Q) :
  (stop - cur) / step == (stop - (cur + step)) / step + 1.
Proof. field. exact step_nonzero. Qed.

Lemma quotient_pos (cur : Q) : cur < stop -> 0 < (stop - cur) / step.
Proof.
  intros H. apply Qlt_shift_div_l; [exact step_pos|]. lra.
Qed.

Lemma quotient_nonpos (cur : Q) : stop <= cur -> (stop - cur) / step <= 0.
Proof.
  intros H. apply Qle_shift_div_r; [exact step_pos|]. lra.
Qed.

(** The number of values left from [cur] on. *)
Lemma arange_len_step (cur : Q) :
  cur < stop -> arange_len cur stop step = S (arange_len (cur + step) stop step).
Proof.
  intros H. unfold arange_len.
  rewrite (Qceiling_comp _ _ (quotient_step cur)), Qceiling_succ.
  pose proof (Qceiling_pos _ (quotient_pos cur H)) as Hpos.
  rewrite (Qceiling_comp _ _ (quotient_step cur)), Qceiling_succ in Hpos.
  rewrite Z2Nat.inj_add by lia. simpl. lia.
Qed.

Lemma arange_len_done (cur : Q) : stop <= cur -> arange_len cur stop step = O.
Proof.
  intros H. unfold arange_len.
  pose proof (Qceiling_nonpos _ (quotient_nonpos cur H)). lia.
Qed.

Lemma arange_steps_length (fuel : nat) (cur : Q) :
  List.length (arange_steps fuel cur stop step)
  = Nat.min fuel (arange_len cur stop step).
Proof.
  revert cur. induction fuel as [|fuel IH]; intros cur; simpl; [reflexivity|].
  destruct (ltb cur stop) eqn:E.
  - apply ltb_lt in E. rewrite (arange_len_step cur E). simpl. now rewrite IH.
  - apply ltb_ge in E. now rewrite (arange_len_done cur E).
Qed.

(** More fuel than the number of values changes nothing. *)
Lemma arange_steps_enough (fuel : nat) (cur : Q) :
  (arange_len cur stop step <= fuel)%nat ->
  arange_steps fuel cur stop step
  = arange_steps (arange_len cur stop step) cur stop step.
Proof.
  revert cur. induction fuel as [|fuel IH]; intros cur Hle.
  - now replace (arange_len cur stop step) with O by lia.
  - simpl. destruct (ltb cur stop) eqn:E.
    + pose proof E as E'. apply ltb_lt in E'.
      rewrite (arange_len_step cur E') in *. simpl. rewrite E.
      f_equal. apply IH. lia.
    + apply ltb_ge in E. now rewrite (arange_len_done cur E).
Qed.

(** Every value lies in the half-open interval and the values grow. *)
Lemma arange_steps_bounds (fuel : nat) (cur : Q) :
  Forall (fun x => cur <= x /\ x < stop) (arange_steps fuel cur stop step).
Proof.
  revert cur. induction fuel as [|fuel IH]; intros cur; simpl; [constructor|].
  destruct (ltb cur stop) eqn:E; [|constructor].
  apply ltb_lt in E. constructor.
  - split; [apply Qle_refl | exact E].
  - eapply Forall_impl; [|apply IH]. simpl. intros x [H1 H2]. split; lra.
Qed.

Lemma arange_steps_increasing (fuel : nat) (cur : Q) :
  StronglySorted Qlt (arange_steps fuel cur stop step).
Proof.
  revert cur. induction fuel as [|fuel IH]; intros cur; simpl; [constructor|].
  destruct (ltb cur stop) eqn:E; [|constructor].
  constructor; [apply IH|].
  eapply Forall_impl; [|apply arange_steps_bounds]. simpl. intros x [H1 H2]. lra.
Qed.

(** The sequence stops only at the end of the interval. *)
Lemma arange_steps_complete (fuel : nat) (cur : Q) :
  (arange_len cur stop step <= fuel)%nat ->
  stop <= cur + inject_Z (Z.of_nat (List.length (arange_steps fuel cur stop step))) * step.
Proof.
  revert cur. induction fuel as [|fuel IH]; intros cur Hle.
  - simpl. assert (H0 : arange_len cur stop step = O) by lia.
    destruct (Qlt_le_dec cur stop) as [Hlt|Hge].
    + rewrite (arange_len_step cur Hlt) in H0. discriminate.
    + cbn [arange_steps List.length Z.of_nat]. change (inject_Z 0) with 0. lra.
  - cbn [arange_steps]. destruct (ltb cur stop) eqn:E.
    + apply ltb_lt in E. rewrite (arange_len_step cur E) in Hle.
      specialize (IH (cur + step) ltac:(lia)).
      cbn [List.length]. rewrite Nat2Z.inj_succ. unfold Z.succ.
      rewrite inject_Z_plus. change (inject_Z 1) with 1. lra.
    + apply ltb_ge in E. cbn [List.length Z.of_nat]. change (inject_Z 0) with 0. lra.
Qed.

End Arange.

(** *** The process pool keeps the order of submission *)

Lemma get_chunks_concat {A : Type} (fuel chunksize : nat) (l : list A) :
  (0 < chunksize)%nat -> (List.length l <= fuel)%nat ->
  List.concat (get_chunks fuel chunksize l) = l.
Proof.
  intros Hn. revert l. induction fuel as [|fuel IH]; intros l Hle.
  - destruct l; [reflexivity | simpl in Hle; lia].
  - destruct l as [|a l]; [reflexivity|].
    cbn [get_chunks List.concat]. rewrite IH.
    + apply firstn_skipn.
    + rewrite length_skipn. cbn [List.length] in *. lia.
Qed.

Lemma executor_map_eq {A B : Type} (fn : A -> B) (l : list A) (chunksize : nat) :
  (0 < chunksize)%nat -> executor_map fn l chunksize = map fn l.
Proof.
  intros Hn. unfold executor_map, process_chunk.
  rewrite <- concat_map, get_chunks_concat; [reflexivity | exact Hn | apply Nat.le_refl].
Qed.

(** *** Crossing masks *)

Lemma length_but_last {A : Type} (l : list A) :
  List.length (but_last l) = (List.length l - 1)%nat.
Proof.
  unfold but_last. induction l as [|a [|b l] IH]; try reflexivity.
  change (removelast (a :: b :: l)) with (a :: removelast (b :: l)).
  cbn [List.length] in *. rewrite IH. lia.
Qed.

Lemma length_pairs (l : list Q) :
  List.length (combine (but_last l) (from_1 l)) = (List.length l - 1)%nat.
Proof.
  rewrite length_combine, length_but_last. unfold from_1.
  rewrite length_tl. lia.
Qed.

Lemma length_ing_mask r l : List.length (ing_mask r l) = (List.length l - 1)%nat.
Proof. unfold ing_mask. now rewrite length_map, length_pairs. Qed.

Lemma length_egr_mask r l : List.length (egr_mask r l) = (List.length l - 1)%nat.
Proof. unfold egr_mask. now rewrite length_map, length_pairs. Qed.

Lemma two_samples_ing r a b :
  crossing_indices (ing_mask r [a; b])
  = if gtb a r && leb b r then [1%nat] else [].
Proof. cbn. now destruct (gtb a r && leb b r). Qed.

Lemma two_samples_egr r a b :
  crossing_indices (egr_mask r [a; b])
  = if leb a r && gtb b r then [1%nat] else [].
Proof. cbn. now destruct (leb a r && gtb b r). Qed.

(** C4.  Crossing detection is symmetric between ingress and egress: the
    series [[5, 2]] with radius 3 gives one ingress, at index 1, and no
    egress; the reversed series [[2, 5]] gives one egress, at index 1, and
    no ingress; and whenever a two-sample series gives an ingress, the
    reversed series gives an egress at the same index and no ingress. *)
Theorem crossing_symmetry :
  (crossing_indices (ing_mask 3 [5; 2]) = [1%nat] /\
   crossing_indices (egr_mask 3 [5; 2]) = []) /\
  (crossing_indices (egr_mask 3 [2; 5]) = [1%nat] /\
   crossing_indices (ing_mask 3 [2; 5]) = []) /\
  (forall radius a b,
     crossing_indices (ing_mask radius [a; b]) = [1%nat] ->
     crossing_indices (egr_mask radius (rev [a; b])) = [1%nat] /\
     crossing_indices (ing_mask radius (rev [a; b])) = [] /\
     crossing_indices (egr_mask radius [a; b]) = []).
Proof.
  split; [split; reflexivity|]. split; [split; reflexivity|].
  intros radius a b. cbn [rev app].
  rewrite !two_samples_ing, !two_samples_egr, !gtb_leb.
  destruct (leb a radius), (leb b radius); simpl; intros H;
    try discriminate; repeat split.
Qed.

Lemma crossing_symmetry_witness :
  crossing_indices (egr_mask MARS_RADIUS (rev [4000; 3000])) = [1%nat].
Proof.
  apply (proj2 (proj2 crossing_symmetry) MARS_RADIUS 4000 3000).
  reflexivity.
Defined.

(** *** Sorted lists *)

Lemma sorted_nth {A : Type} (R : A -> A -> Prop) (l : list A) :
  StronglySorted R l ->
  forall i j a b, (i < j)%nat ->
    nth_error l i = Some a -> nth_error l j = Some b -> R a b.
Proof.
  induction 1 as [|x l Hs IH Hall]; intros i j a b Hij Hi Hj.
  - destruct i; discriminate.
  - destruct j as [|j]; [lia|]. simpl in Hj. destruct i as [|i].
    + injection Hi as <-. rewrite Forall_forall in Hall.
      apply Hall. eapply nth_error_In; eassumption.
    + simpl in Hi. apply (IH i j); [lia | assumption | assumption].
Qed.

Lemma sorted_weaken {A : Type} (R R' : A -> A -> Prop) (l : list A) :
  (forall a b, R a b -> R' a b) -> StronglySorted R l -> StronglySorted R' l.
Proof.
  intros Himp. induction 1 as [|x l Hs IH Hall]; constructor; [exact IH|].
  eapply Forall_impl; [|exact Hall]. intros b. apply Himp.
Qed.

Lemma where_from_bounds (i : nat) (mask : list bool) :
  Forall (fun k => (i <= k < i + List.length mask)%nat) (where_from i mask).
Proof.
  revert i. induction mask as [|b rest IH]; intros i; simpl; [constructor|].
  assert (H : Forall (fun k => (i <= k < i + S (List.length rest))%nat)
                     (where_from (S i) rest)).
  { eapply Forall_impl; [|apply IH]. simpl. intros k Hk. lia. }
  destruct b; [constructor; [lia | exact H] | exact H].
Qed.

Lemma where_from_increasing (i : nat) (mask : list bool) :
  StronglySorted lt (where_from i mask).
Proof.
  revert i. induction mask as [|b rest IH]; intros i; simpl; [constructor|].
  destruct b; [|apply IH]. constructor; [apply IH|].
  eapply Forall_impl; [|apply where_from_bounds]. simpl. intros k Hk. lia.
Qed.

Lemma crossing_indices_bounds (mask : list bool) :
  Forall (fun k => (1 <= k <= List.length mask)%nat) (crossing_indices mask).
Proof.
  unfold crossing_indices. apply Forall_map.
  eapply Forall_impl; [|apply (where_from_bounds 0)]. simpl. intros k Hk. lia.
Qed.

Lemma crossing_indices_increasing (mask : list bool) :
  StronglySorted lt (crossing_indices mask).
Proof.
  unfold crossing_indices.
  induction (where_from_increasing 0 mask) as [|x l Hs IH Hall]; simpl;
    constructor; [exact IH|].
  apply Forall_map. eapply Forall_impl; [|exact Hall]. simpl. intros k Hk. lia.
Qed.

(** *** The scan *)

Section ScanProofs.
Context {vec : Type}.
Variable E : ephemeris vec.
Variable gs_id : string.

Lemma try_fails_iff (et : Q) :
  tangent_params_try E et gs_id = SpiceyError <-> geometry_fails E gs_id et.
Proof.
  unfold tangent_params_try, geometry_fails, andThen.
  destruct (spkpos_ray E gs_id et) as [ray|] eqn:Hray.
  - split.
    + intros H. right. exists ray. split; [reflexivity|].
      destruct (tangpt E et ray); [|now left].
      destruct (spkpos_sun E et); [discriminate | now right].
    + intros [H|[ray' [Heq [H|H]]]]; [discriminate | |];
        injection Heq as <-.
      * now rewrite H.
      * destruct (tangpt E et ray); [now rewrite H | reflexivity].
  - split; [now left | reflexivity].
Qed.

Lemma try_answer_et (et : Q) (s : sample) :
  tangent_params_try E et gs_id = Answer s -> sample_et s = et.
Proof.
  unfold tangent_params_try, andThen.
  destruct (spkpos_ray E gs_id et) as [ray|]; [|discriminate].
  destruct (tangpt E et ray) as [tanpt|]; [|discriminate].
  destruct (spkpos_sun E et) as [sun_vec|]; [|discriminate].
  intros H. injection H as <-. reflexivity.
Qed.

Lemma compute_none_iff (et : Q) :
  compute_tangent_params E et gs_id = None <-> geometry_fails E gs_id et.
Proof.
  rewrite <- try_fails_iff. unfold compute_tangent_params.
  destruct (tangent_params_try E et gs_id); split; congruence.
Qed.

Lemma compute_some_et (et : Q) (s : sample) :
  compute_tangent_params E et gs_id = Some s -> sample_et s = et.
Proof.
  unfold compute_tangent_params.
  destruct (tangent_params_try E et gs_id) eqn:H; [|discriminate].
  intros Heq. injection Heq as <-. now apply try_answer_et.
Qed.

Lemma scan_results_map (et_list : list Q) :
  scan_results E gs_id et_list
  = map (fun et => compute_tangent_params E et gs_id) et_list.
Proof. unfold scan_results. apply executor_map_eq. lia. Qed.

Lemma keep_valid_app (r1 r2 : list (option (@sample vec))) :
  keep_valid (r1 ++ r2) = keep_valid r1 ++ keep_valid r2.
Proof.
  induction r1 as [|[s|] r1 IH]; simpl; [reflexivity | now rewrite IH | exact IH].
Qed.

Lemma valid_epochs_in (et_list : list Q) (x : Q) :
  In x (map sample_et (keep_valid (scan_results E gs_id et_list))) ->
  In x et_list /\ compute_tangent_params E x gs_id <> None.
Proof.
  rewrite scan_results_map.
  induction et_list as [|et rest IH]; simpl; [tauto|].
  destruct (compute_tangent_params E et gs_id) as [s|] eqn:Hs; simpl.
  - intros [H|H].
    + pose proof (compute_some_et et s Hs) as Het.
      assert (Hx : x = et) by congruence. subst x.
      split; [now left | congruence].
    + destruct (IH H) as [H1 H2]. split; [now right | exact H2].
  - intros H. destruct (IH H) as [H1 H2]. split; [now right | exact H2].
Qed.

Lemma valid_epochs_sorted (R : Q -> Q -> Prop) (et_list : list Q) :
  StronglySorted R et_list ->
  StronglySorted R (map sample_et (keep_valid (scan_results E gs_id et_list))).
Proof.
  induction 1 as [|et rest Hs IH Hall].
  - rewrite scan_results_map. constructor.
  - assert (Hrest : Forall (R et)
        (map sample_et (keep_valid (scan_results E gs_id rest)))).
    { apply Forall_forall. intros x Hx. apply valid_epochs_in in Hx as [Hx _].
      rewrite Forall_forall in Hall. now apply Hall. }
    rewrite scan_results_map in *. simpl.
    destruct (compute_tangent_params E et gs_id) as [s|] eqn:Hc; [|exact IH].
    simpl. rewrite (compute_some_et et s Hc). now constructor.
Qed.

Lemma all_fail_valid_nil (et_list : list Q) :
  (forall et, In et et_list -> geometry_fails E gs_id et) ->
  keep_valid (scan_results E gs_id et_list) = [].
Proof.
  rewrite scan_results_map.
  induction et_list as [|et rest IH]; intros Hall; [reflexivity|].
  simpl. rewrite (proj2 (compute_none_iff et)) by (apply Hall; now left).
  apply IH. intros et' Hin. apply Hall. now right.
Qed.

Lemma some_valid_nonempty (et_list : list Q) (et : Q) :
  In et et_list -> ~ geometry_fails E gs_id et ->
  keep_valid (scan_results E gs_id et_list) <> [].
Proof.
  rewrite scan_results_map. intros Hin Hok.
  apply in_split in Hin as [l1 [l2 ->]].
  rewrite map_app, keep_valid_app. simpl.
  destruct (compute_tangent_params E et gs_id) as [s|] eqn:Hc.
  - intros H. apply app_eq_nil in H as [_ H]. discriminate.
  - exfalso. apply Hok. now apply compute_none_iff.
Qed.

Lemma failed_epoch_skipped (before after : list Q) (et : Q) :
  geometry_fails E gs_id et ->
  keep_valid (scan_results E gs_id (before ++ et :: after))
  = keep_valid (scan_results E gs_id (before ++ after)).
Proof.
  intros Hfail. rewrite !scan_results_map, !map_app, !keep_valid_app. simpl.
  now rewrite (proj2 (compute_none_iff et) Hfail).
Qed.

(** *** The reduction *)

Lemma crossing_rows_ok (et_vals : list Q) (tanpts : list vec) (szas : list Q)
      (idxs : list nat) :
  List.length tanpts = List.length et_vals ->
  List.length szas = List.length et_vals ->
  Forall (fun k => (k < List.length et_vals)%nat) idxs ->
  exists rows, crossing_rows E et_vals tanpts szas idxs = Ok rows.
Proof.
  intros Ht Hz. induction 1 as [|k ks Hk Hks [rows IH]].
  - exists []. reflexivity.
  - cbn [crossing_rows]. unfold getitem.
    destruct (nth_error et_vals k) as [t_et|] eqn:H1;
      [|apply nth_error_None in H1; lia].
    destruct (nth_error tanpts k) as [tp|] eqn:H2;
      [|apply nth_error_None in H2; lia].
    destruct (nth_error szas k) as [sza|] eqn:H3;
      [|apply nth_error_None in H3; lia].
    cbn [bind]. destruct (reclat_deg E tp) as [lon lat].
    cbn [bind]. rewrite IH. cbn [bind]. eexists. reflexivity.
Qed.

Lemma crossing_rows_ET (et_vals : list Q) (tanpts : list vec) (szas : list Q)
      (idxs : list nat) (rows : list event) :
  crossing_rows E et_vals tanpts szas idxs = Ok rows ->
  Forall2 (fun k r => nth_error et_vals k = Some (ET r)) idxs rows.
Proof.
  revert rows. induction idxs as [|k ks IH]; intros rows; cbn [crossing_rows].
  - intros H. injection H as <-. constructor.
  - unfold getitem.
    destruct (nth_error et_vals k) as [t_et|] eqn:H1; [|discriminate].
    destruct (nth_error tanpts k) as [tp|]; [|discriminate].
    cbn [bind]. destruct (reclat_deg E tp) as [lon lat].
    destruct (nth_error szas k) as [sza|]; [|discriminate].
    cbn [bind].
    destruct (crossing_rows E et_vals tanpts szas ks) as [out|e]; [|discriminate].
    cbn [bind]. intros H. injection H as <-.
    constructor; [exact H1 | now apply IH].
Qed.

Lemma rows_sorted (R : Q -> Q -> Prop) (et_vals : list Q)
      (idxs : list nat) (rows : list event) :
  StronglySorted R et_vals -> StronglySorted lt idxs ->
  Forall2 (fun k r => nth_error et_vals k = Some (ET r)) idxs rows ->
  StronglySorted R (map ET rows).
Proof.
  intros Hs Hi H2. induction H2 as [|k r ks rs Hk Hrest IH]; [constructor|].
  apply StronglySorted_inv in Hi as [Hks Hlt]. simpl.
  constructor; [now apply IH|].
  clear IH Hks. induction Hrest as [|k' r' ks rs Hk' Hrest IH]; [constructor|].
  simpl. apply Forall_cons_iff in Hlt as [Hkk' Hlt]. constructor; [|now apply IH].
  exact (sorted_nth R et_vals Hs k k' _ _ Hkk' Hk Hk').
Qed.

Lemma reduce_crossings_ok (radius : Q) (valid : list sample) :
  valid <> [] ->
  exists ingress egress, reduce_crossings E radius valid = Ok (ingress, egress).
Proof.
  intros Hne. unfold reduce_crossings.
  destruct valid as [|s rest] eqn:Hv; [contradiction|]. rewrite <- Hv. clear Hv Hne.
  set (et_vals := map sample_et valid).
  set (ips := map sample_ip valid).
  assert (Hlen : forall mask, List.length mask = (List.length ips - 1)%nat ->
            exists rows,
              crossing_rows E et_vals (map sample_tanpt valid)
                (map sample_sza valid) (crossing_indices mask) = Ok rows).
  { intros mask Hm. apply crossing_rows_ok.
    - unfold et_vals. now rewrite !length_map.
    - unfold et_vals. now rewrite !length_map.
    - eapply Forall_impl; [|apply crossing_indices_bounds]. simpl.
      intros k Hk. rewrite Hm in Hk. unfold et_vals, ips in *.
      rewrite !length_map in *. lia. }
  destruct (Hlen _ (length_ing_mask radius ips)) as [ing ->].
  destruct (Hlen _ (length_egr_mask radius ips)) as [egr ->].
  exists ing, egr. reflexivity.
Qed.

Lemma reduce_crossings_sorted (R : Q -> Q -> Prop) (radius : Q)
      (valid : list sample) (ingress egress : list event) :
  StronglySorted R (map sample_et valid) ->
  reduce_crossings E radius valid = Ok (ingress, egress) ->
  StronglySorted R (map ET ingress) /\ StronglySorted R (map ET egress).
Proof.
  intros Hs. unfold reduce_crossings.
  destruct valid as [|s rest]; [discriminate|].
  set (valid := s :: rest) in *.
  destruct (crossing_rows E _ _ _ (crossing_indices (ing_mask _ _)))
    as [ing|e] eqn:Hing; [|discriminate].
  destruct (crossing_rows E _ _ _ (crossing_indices (egr_mask _ _)))
    as [egr|e] eqn:Hegr; [|discriminate].
  cbn [bind]. intros H. injection H as <- <-.
  split; eapply rows_sorted; try exact Hs;
    try apply crossing_indices_increasing;
    eapply crossing_rows_ET; eassumption.
Qed.

(** *** The claims about the scan *)

(** In exact arithmetic, for [start_epoch < end_epoch] and [step > 0], the
    epoch sequence [start_epoch, start_epoch + step, ...] with [end_epoch]
    excluded has [ceil ((end_epoch - start_epoch) / step)] values: they lie
    in [[start_epoch, end_epoch)], the value after the last one does not,
    and stepping with any larger bound gives the same sequence. *)
Lemma arange_exact_count (start_epoch end_epoch step : Q)
      (Hrange : start_epoch < end_epoch) (Hstep : 0 < step) :
  let et_list := arange start_epoch end_epoch step in
  Z.of_nat (List.length (scan_results E gs_id et_list))
  = Qceiling ((end_epoch - start_epoch) / step) /\
  Z.of_nat (List.length et_list) = Qceiling ((end_epoch - start_epoch) / step) /\
  Forall (fun et => start_epoch <= et /\ et < end_epoch) et_list /\
  end_epoch <= start_epoch + inject_Z (Z.of_nat (List.length et_list)) * step /\
  (forall fuel, (List.length et_list <= fuel)%nat ->
                arange_steps fuel start_epoch end_epoch step = et_list).
Proof.
  intros et_list.
  assert (Hlen : List.length et_list = arange_len start_epoch end_epoch step).
  { unfold et_list, arange. rewrite (arange_steps_length _ _ Hstep). lia. }
  assert (Hceil : Z.of_nat (List.length et_list)
                  = Qceiling ((end_epoch - start_epoch) / step)).
  { rewrite Hlen. unfold arange_len.
    pose proof (Qceiling_pos _ (quotient_pos _ _ Hstep _ Hrange)). lia. }
  split; [|split; [|split; [|split]]].
  - now rewrite scan_results_map, length_map.
  - exact Hceil.
  - apply arange_steps_bounds. exact Hstep.
  - unfold et_list, arange. apply (arange_steps_complete _ _ Hstep). lia.
  - intros fuel Hfuel. rewrite Hlen in Hfuel.
    now apply (arange_steps_enough _ _ Hstep).
Qed.

(** C5.  For every scan with a positive step, the valid samples reach the
    crossing reduction in non-decreasing epoch order (the pool hands the
    results back in the order of submission), the reduction of a non-empty
    list of valid samples returns, and the ingress events and the egress
    events it returns are each in non-decreasing order of their ET column. *)
Theorem scan_in_epoch_order (start_et end_et step : Q) (Hstep : 0 < step) :
  let valid := keep_valid (scan_results E gs_id (arange start_et end_et step)) in
  StronglySorted Qle (map sample_et valid) /\
  (valid <> [] ->
   exists ingress egress,
     find_occultations_parallel E gs_id start_et end_et step = Ok (ingress, egress)) /\
  (forall ingress egress,
     find_occultations_parallel E gs_id start_et end_et step = Ok (ingress, egress) ->
     StronglySorted Qle (map ET ingress) /\ StronglySorted Qle (map ET egress)).
Proof.
  intros valid.
  assert (Hs : StronglySorted Qle (map sample_et valid)).
  { apply valid_epochs_sorted. apply (sorted_weaken Qlt); [apply Qlt_le_weak|].
    apply arange_steps_increasing. exact Hstep. }
  split; [exact Hs | split].
  - apply reduce_crossings_ok.
  - intros ingress egress H. eapply reduce_crossings_sorted; eassumption.
Qed.

(** C6.  A geometry failure at one sampled epoch is recovered locally: the
    per-epoch computation returns [None] and raises nothing, the epoch is
    absent from the series the reduction sees, the scan is the scan of the
    remaining epochs, and it returns its two event lists as soon as one of
    the remaining epochs has a geometry. *)
Theorem geometry_failure_dropped (before after : list Q) (et : Q)
        (Hfail : geometry_fails E gs_id et) :
  compute_tangent_params E et gs_id = None /\
  ~ In et (map sample_et
             (keep_valid (scan_results E gs_id (before ++ et :: after)))) /\
  scan_epochs E gs_id (before ++ et :: after)
  = scan_epochs E gs_id (before ++ after) /\
  (forall et', In et' (before ++ after) -> ~ geometry_fails E gs_id et' ->
     exists ingress egress,
       scan_epochs E gs_id (before ++ et :: after) = Ok (ingress, egress)).
Proof.
  split; [now apply compute_none_iff | split; [|split]].
  - intros Hin. apply valid_epochs_in in Hin as [_ Hin].
    apply Hin. now apply compute_none_iff.
  - unfold scan_epochs. now rewrite failed_epoch_skipped.
  - intros et' Hin Hok. unfold scan_epochs.
    rewrite failed_epoch_skipped by exact Hfail.
    apply reduce_crossings_ok. now apply (some_valid_nonempty _ et').
Qed.

(** C9.  If every sampled epoch of the range has a geometry failure, the
    list of valid samples is empty and the scan raises at its unpacking:
    the public function ends with [ValueError], not with two empty event
    lists. *)
Theorem all_failed_scan_raises (start_et end_et step : Q)
        (Hall : forall et, In et (arange start_et end_et step) ->
                           geometry_fails E gs_id et) :
  keep_valid (scan_results E gs_id (arange start_et end_et step)) = [] /\
  find_occultations_parallel E gs_id start_et end_et step = Raise ValueError /\
  find_occultations_parallel E gs_id start_et end_et step <> Ok ([], []).
Proof.
  pose proof (all_fail_valid_nil _ Hall) as Hnil.
  assert (Hr : find_occultations_parallel E gs_id start_et end_et step
               = Raise ValueError).
  { unfold find_occultations_parallel, scan_epochs. now rewrite Hnil. }
  split; [exact Hnil | split; [exact Hr | rewrite Hr; discriminate]].
Qed.

End ScanProofs.

(** *** The scan on the scenario data *)

Local Open Scope string_scope.

Example toy_scan :
  exists ev_in ev_out,
    find_occultations_parallel toy_ephemeris "399" 0 5 1 = Ok ([ev_in], [ev_out]) /\
    ET ev_in == 3 /\ ET ev_out == 4 /\ Ls ev_in == 40 /\
    map sample_et (keep_valid (scan_results toy_ephemeris "399" (arange 0 5 1)))
    = [0; 0 + 1 + 1; 0 + 1 + 1 + 1; 0 + 1 + 1 + 1 + 1].
Proof.
  eexists. eexists. split; [vm_compute; reflexivity|].
  repeat split.
Qed.

Example arange_exact_count_example :
  Z.of_nat (List.length (scan_results toy_ephemeris "399" (arange 0 (7 # 2) 1)))
  = 4%Z.
Proof.
  exact (proj1 (arange_exact_count toy_ephemeris "399" 0 (7 # 2) 1 eq_refl eq_refl)).
Qed.

Lemma scan_in_epoch_order_witness :
  exists ingress egress,
    find_occultations_parallel toy_ephemeris "399" 0 5 1 = Ok (ingress, egress) /\
    StronglySorted Qle (map ET ingress) /\ StronglySorted Qle (map ET egress).
Proof.
  destruct (scan_in_epoch_order toy_ephemeris "399" 0 5 1 eq_refl)
    as [_ [Hret Hord]].
  destruct Hret as [ingress [egress Hret]]; [vm_compute; discriminate|].
  exists ingress, egress. split; [exact Hret | now apply Hord].
Defined.

Lemma geometry_failure_dropped_witness :
  compute_tangent_params toy_ephemeris 1 "399" = None /\
  scan_epochs toy_ephemeris "399" [0; 1; 2; 3; 4]
  = scan_epochs toy_ephemeris "399" [0; 2; 3; 4].
Proof.
  assert (Hfail : geometry_fails toy_ephemeris "399" 1) by (left; reflexivity).
  destruct (geometry_failure_dropped toy_ephemeris "399" [0] [2; 3; 4] 1 Hfail)
    as [Hnone [_ [Hsame _]]].
  split; [exact Hnone | exact Hsame].
Defined.

Lemma all_failed_scan_raises_witness :
  find_occultations_parallel dark_ephemeris "399" 0 3 1 = Raise ValueError.
Proof.
  apply (all_failed_scan_raises dark_ephemeris "399" 0 3 1).
  intros et _. left. reflexivity.
Defined.

End DetectorProofs.

(** ** The epoch sequence on doubles *)

Module NumPyProofs.
Import Detector NumPy DetectorProofs.
Local Open Scope Z_scope.






End NumPyProofs.


(** ** Event aligner *)

Module AlignerProofs.
Import Py Aligner.
Local Open Scope Z_scope.

Lemma sortedb_sorted (keys : list Z) :
  sortedb keys = true <-> StronglySorted Z.le keys.
Proof.
  induction keys as [|k [|k' rest] IH].
  - split; [constructor | reflexivity].
  - split; [repeat constructor | reflexivity].
  - change (sortedb (k :: k' :: rest)) with ((k <=? k') && sortedb (k' :: rest)).
    rewrite andb_true_iff, Z.leb_le, IH. split.
    + intros [Hk Hs]. constructor; [exact Hs|].
      apply StronglySorted_inv in Hs as [_ Hall].
      constructor; [exact Hk|].
      eapply Forall_impl; [|exact Hall]. simpl. intros x Hx. lia.
    + intros Hs. apply StronglySorted_inv in Hs as [Hs Hall].
      split; [|exact Hs]. now apply Forall_inv in Hall.
Qed.

Lemma sorted_rows (right : list obsweb_row) :
  StronglySorted Z.le (map ingress right) -> StronglySorted by_ingress right.
Proof.
  induction right as [|r rest IH]; simpl; intros H; [constructor|].
  apply StronglySorted_inv in H as [Hs Hall].
  constructor; [now apply IH|].
  apply Forall_forall. intros x Hx. rewrite Forall_forall in Hall.
  unfold by_ingress. apply Hall. now apply in_map.
Qed.

Lemma sorted_snoc (l : list obsweb_row) (x : obsweb_row) :
  StronglySorted by_ingress (l ++ [x]) ->
  StronglySorted by_ingress l /\ Forall (fun a => ingress a <= ingress x) l.
Proof.
  induction l as [|a l IH]; simpl; intros H.
  - split; constructor.
  - apply StronglySorted_inv in H as [Hs Hall].
    destruct (IH Hs) as [Hl Hx]. split.
    + constructor; [exact Hl|].
      apply Forall_forall. intros y Hy. rewrite Forall_forall in Hall.
      apply Hall. apply in_or_app. now left.
    + constructor; [|exact Hx]. rewrite Forall_forall in Hall.
      apply (Hall x). apply in_or_app. right. now left.
Qed.

(** *** The two searches *)

Section Searches.
Variable key : Z.

Lemma backward_scan (right : list obsweb_row) (found : option obsweb_row) :
  StronglySorted by_ingress right ->
  (scan_while (fun k => k <=? key) right found = found /\
   forall r, In r right -> key < ingress r) \/
  (exists rb, scan_while (fun k => k <=? key) right found = Some rb /\
              backward_found key right (Some rb)).
Proof.
  intros Hs. revert found.
  induction Hs as [|r rest Hs IH Hall]; intros found.
  - left. split; [reflexivity | intros r []].
  - rewrite Forall_forall in Hall. unfold by_ingress in Hall. cbn [scan_while].
    destruct (ingress r <=? key) eqn:E.
    + apply Z.leb_le in E. right.
      destruct (IH (Some r)) as [[Heq Hgt] | [rb [Heq [Hin [Hle Hmax]]]]].
      * exists r. split; [exact Heq|]. split; [now left|]. split; [exact E|].
        intros r' [<-|Hr'] Hle; [lia|]. specialize (Hgt r' Hr'). lia.
      * exists rb. split; [exact Heq|]. split; [now right|]. split; [exact Hle|].
        intros r' [<-|Hr'] Hle'; [now apply Hall | now apply Hmax].
    + apply Z.leb_gt in E. left. split; [reflexivity|].
      intros r' [<-|Hr']; [exact E|]. specialize (Hall r' Hr'). simpl in Hall. lia.
Qed.

Lemma forward_scan (right : list obsweb_row) (found : option obsweb_row) :
  StronglySorted by_ingress right ->
  (scan_while (fun k => key <=? k) (rev right) found = found /\
   forall r, In r right -> ingress r < key) \/
  (exists rf, scan_while (fun k => key <=? k) (rev right) found = Some rf /\
              forward_found key right (Some rf)).
Proof.
  revert found. induction right as [|x l IH] using rev_ind; intros found Hs.
  - left. split; [reflexivity | intros r []].
  - apply sorted_snoc in Hs as [Hs Hall]. rewrite Forall_forall in Hall.
    rewrite rev_app_distr. cbn [rev app scan_while].
    destruct (key <=? ingress x) eqn:E.
    + apply Z.leb_le in E. right.
      destruct (IH (Some x) Hs) as [[Heq Hlt] | [rf [Heq [Hin [Hle Hmin]]]]].
      * exists x. split; [exact Heq|].
        split; [apply in_or_app; right; now left|]. split; [exact E|].
        intros r' Hr' Hle. apply in_app_or in Hr' as [Hr'|[<-|[]]]; [|lia].
        specialize (Hlt r' Hr'). lia.
      * exists rf. split; [exact Heq|].
        split; [apply in_or_app; now left|]. split; [exact Hle|].
        intros r' Hr' Hle'. apply in_app_or in Hr' as [Hr'|[<-|[]]].
        -- now apply Hmin.
        -- now apply Hall.
    + apply Z.leb_gt in E. left. split; [reflexivity|].
      intros r' Hr'. apply in_app_or in Hr' as [Hr'|[<-|[]]]; [|exact E].
      specialize (Hall r' Hr'). simpl in Hall. lia.
Qed.

Lemma backward_search (right : list obsweb_row) :
  StronglySorted by_ingress right ->
  backward_found key right (scan_while (fun k => k <=? key) right None).
Proof.
  intros Hs. destruct (backward_scan right None Hs) as [[-> H] | [rb [-> H]]];
    exact H.
Qed.

Lemma forward_search (right : list obsweb_row) :
  StronglySorted by_ingress right ->
  forward_found key right (scan_while (fun k => key <=? k) (rev right) None).
Proof.
  intros Hs. destruct (forward_scan right None Hs) as [[-> H] | [rf [-> H]]];
    exact H.
Qed.

End Searches.

(** *** The nearest row within the tolerance *)

Lemma asof_nearest_spec (tol : Z) (right : list obsweb_row) (key : Z) :
  StronglySorted by_ingress right ->
  match asof_nearest tol right key with
  | Some r0 => In r0 right /\ distance key r0 <= tol /\
               forall r, In r right -> distance key r0 <= distance key r
  | None => forall r, In r right -> tol < distance key r
  end.
Proof.
  intros Hs.
  pose proof (backward_search key right Hs) as Hb.
  pose proof (forward_search key right Hs) as Hf.
  unfold asof_nearest, asof_backward, asof_forward, within, distance.
  destruct (scan_while (fun k => k <=? key) right None) as [rb|];
    destruct (scan_while (fun k => key <=? k) (rev right) None) as [rf|];
    cbn [backward_found forward_found] in Hb, Hf.
  - destruct Hb as [Hinb [Hleb Hmax]]. destruct Hf as [Hinf [Hlef Hmin]].
    destruct (tol <? key - ingress rb) eqn:Eb;
      destruct (tol <? ingress rf - key) eqn:Ef;
      try destruct (key - ingress rb <=? ingress rf - key) eqn:En;
      rewrite ?Z.ltb_lt, ?Z.ltb_ge, ?Z.leb_le, ?Z.leb_gt in *;
      repeat split; try assumption; try lia;
      intros r Hr; specialize (Hmax r Hr); specialize (Hmin r Hr); lia.
  - destruct Hb as [Hinb [Hleb Hmax]].
    destruct (tol <? key - ingress rb) eqn:Eb;
      rewrite ?Z.ltb_lt, ?Z.ltb_ge in *;
      repeat split; try assumption; try lia;
      intros r Hr; specialize (Hmax r Hr); specialize (Hf r Hr); lia.
  - destruct Hf as [Hinf [Hlef Hmin]].
    destruct (tol <? ingress rf - key) eqn:Ef;
      rewrite ?Z.ltb_lt, ?Z.ltb_ge in *;
      repeat split; try assumption; try lia;
      intros r Hr; specialize (Hmin r Hr); specialize (Hb r Hr); lia.
  - intros r Hr. specialize (Hb r Hr). specialize (Hf r Hr). lia.
Qed.

Lemma in_dropna (merged : list (spice_row * option obsweb_row)) d r :
  In (d, r) (dropna merged) <-> In (d, Some r) merged.
Proof.
  induction merged as [|[d' [r'|]] rest IH]; simpl; [tauto| |].
  - rewrite IH. split; intros [H|H]; auto; left; congruence.
  - rewrite IH. split; [auto | intros [H|H]; [discriminate | exact H]].
Qed.

Lemma merge_asof_sorted (left : list spice_row) (right : list obsweb_row) (tol : Z) :
  sortedb (map Ingress_UTC left) = true ->
  sortedb (map ingress right) = true ->
  merge_asof left right tol
  = Ok (map (fun l => (l, asof_nearest tol right (Ingress_UTC l))) left).
Proof. intros Hl Hr. unfold merge_asof. now rewrite Hl, Hr. Qed.

Lemma in_aligned (left : list spice_row) (right : list obsweb_row) (tol : Z) d r :
  In (d, r)
     (dropna (map (fun l => (l, asof_nearest tol right (Ingress_UTC l))) left))
  <-> In d left /\ asof_nearest tol right (Ingress_UTC d) = Some r.
Proof.
  rewrite in_dropna, in_map_iff. split.
  - intros [l [Heq Hin]]. injection Heq as -> Hr. tauto.
  - intros [Hin Hr]. exists d. split; [now rewrite Hr | exact Hin].
Qed.

(** C7.  For sorted key columns the join returns, and for every derived
    event the aligned output pairs it with a reported event whose ingress
    is nearest in absolute time; the pair is kept exactly when that
    distance is at most the tolerance, the boundary included (a distance
    equal to the tolerance matches, one nanosecond more does not); a
    derived event with no reported event within the tolerance is dropped. *)
Theorem aligner_nearest_within_tolerance
        (df_spice : list spice_row) (df_obsweb : list obsweb_row) (tol : Z)
        (Hleft : sortedb (map Ingress_UTC df_spice) = true)
        (Hright : sortedb (map ingress df_obsweb) = true) :
  exists merged,
    merge_asof df_spice df_obsweb tol = Ok merged /\
    (forall d r, In (d, r) (dropna merged) ->
       In d df_spice /\ In r df_obsweb /\
       distance (Ingress_UTC d) r <= tol /\
       forall r', In r' df_obsweb ->
                  distance (Ingress_UTC d) r <= distance (Ingress_UTC d) r') /\
    (forall d, In d df_spice ->
       ((exists r, In (d, r) (dropna merged)) <->
        (exists r', In r' df_obsweb /\ distance (Ingress_UTC d) r' <= tol))) /\
    (forall d, (forall r', In r' df_obsweb -> tol < distance (Ingress_UTC d) r') ->
               forall r, ~ In (d, r) (dropna merged)) /\
    (forall d r, In d df_spice -> df_obsweb = [r] ->
       (distance (Ingress_UTC d) r = tol -> In (d, r) (dropna merged)) /\
       (distance (Ingress_UTC d) r = tol + 1 -> ~ In (d, r) (dropna merged))).
Proof.
  eexists. split; [now apply merge_asof_sorted|].
  assert (Hs : StronglySorted by_ingress df_obsweb)
    by now apply sorted_rows, sortedb_sorted.
  assert (Hkept : forall d r,
    In (d, r) (dropna (map (fun l => (l, asof_nearest tol df_obsweb (Ingress_UTC l)))
                           df_spice)) ->
    In d df_spice /\ In r df_obsweb /\ distance (Ingress_UTC d) r <= tol /\
    forall r', In r' df_obsweb ->
               distance (Ingress_UTC d) r <= distance (Ingress_UTC d) r').
  { intros d r H. apply in_aligned in H as [Hd Hr].
    pose proof (asof_nearest_spec tol df_obsweb (Ingress_UTC d) Hs) as Hn.
    rewrite Hr in Hn. tauto. }
  assert (Hiff : forall d, In d df_spice ->
    ((exists r, In (d, r)
        (dropna (map (fun l => (l, asof_nearest tol df_obsweb (Ingress_UTC l)))
                     df_spice))) <->
     (exists r', In r' df_obsweb /\ distance (Ingress_UTC d) r' <= tol))).
  { intros d Hd. split.
    - intros [r H]. exists r. apply Hkept in H. tauto.
    - intros [r' [Hin Hle]].
      pose proof (asof_nearest_spec tol df_obsweb (Ingress_UTC d) Hs) as Hn.
      destruct (asof_nearest tol df_obsweb (Ingress_UTC d)) as [r|] eqn:Hr.
      + exists r. apply in_aligned. tauto.
      + specialize (Hn r' Hin). lia. }
  split; [exact Hkept | split; [exact Hiff | split]].
  - intros d Hfar r H. apply Hkept in H as [_ [Hin [Hle _]]].
    specialize (Hfar r Hin). lia.
  - intros d r Hd ->. split.
    + intros Hdist.
      destruct (proj2 (Hiff d Hd)) as [r' H].
      * exists r. split; [now left | lia].
      * pose proof (Hkept _ _ H) as [_ [[<-|[]] _]]. exact H.
    + intros Hdist H. apply Hkept in H as [_ [_ [Hle _]]]. lia.
Qed.

Lemma aligner_nearest_within_tolerance_witness :
  exists merged,
    merge_asof [spice_at (t2024 + tolerance); spice_at (t2024 + tolerance + 1)]
               [obsweb_at t2024] tolerance = Ok merged /\
    In (spice_at (t2024 + tolerance), obsweb_at t2024) (dropna merged) /\
    ~ In (spice_at (t2024 + tolerance + 1), obsweb_at t2024) (dropna merged).
Proof.
  destruct (aligner_nearest_within_tolerance
              [spice_at (t2024 + tolerance); spice_at (t2024 + tolerance + 1)]
              [obsweb_at t2024] tolerance eq_refl eq_refl)
    as [merged [Hm [_ [_ [_ Hedge]]]]].
  exists merged. split; [exact Hm | split].
  - apply (Hedge _ (obsweb_at t2024)); [now left | reflexivity | reflexivity].
  - apply (Hedge _ (obsweb_at t2024)); [right; now left | reflexivity | reflexivity].
Defined.

Lemma align_typed (spice_file : list spice_row) (df_obsweb : list obsweb_row) :
  spice_file <> [] -> df_obsweb <> [] ->
  align spice_file df_obsweb = align_frames spice_file df_obsweb.
Proof.
  intros Hs Ho. unfold align.
  destruct spice_file; [contradiction|]. destruct df_obsweb; [contradiction|].
  reflexivity.
Qed.

Lemma align_untyped (spice_file : list spice_row) (df_obsweb : list obsweb_row) :
  spice_file = [] \/ df_obsweb = [] ->
  align spice_file df_obsweb = Raise MergeError.
Proof.
  unfold align. intros [-> | ->]; [reflexivity|].
  now rewrite orb_true_r.
Qed.

Lemma align_returns (spice_file : list spice_row) (df_obsweb : list obsweb_row) out :
  align spice_file df_obsweb = Ok out ->
  align_frames spice_file df_obsweb = Ok out.
Proof.
  unfold align. destruct (untyped spice_file || untyped df_obsweb);
    [discriminate | trivial].
Qed.

(** The script runs the join on the rows in scope with sixty seconds. *)
Lemma align_merged (spice_file : list spice_row) (df_obsweb : list obsweb_row)
      merged pct :
  align spice_file df_obsweb = Ok (merged, pct) ->
  exists joined,
    merge_asof (in_scope spice_file) df_obsweb tolerance = Ok joined /\
    merged = dropna joined.
Proof.
  intros H. apply align_returns in H. revert H. unfold align_frames.
  destruct (merge_asof (in_scope spice_file) df_obsweb tolerance) as [joined|e];
    [|discriminate].
  cbn [bind]. destruct (coverage_pct _ _) as [q|e]; [|discriminate].
  cbn [bind]. intros H. injection H as <- _. exists joined. now split.
Qed.

(** *** The coverage statistic *)

Lemma truediv_raises (a b : nat) :
  truediv a b = Raise ZeroDivisionError <-> b = O.
Proof. destruct b; simpl; split; congruence. Qed.

Lemma coverage_pct_raises (covered_occ total_occ : nat) :
  coverage_pct covered_occ total_occ = Raise ZeroDivisionError <-> total_occ = O.
Proof.
  unfold coverage_pct. destruct total_occ; simpl; split; congruence.
Qed.

(** C8, as the specification states it, fails: with derived events in the
    file but none of them in scope the statistic is a division by zero
    that nothing guards. *)
Lemma coverage_empty_scope_raises :
  in_scope [spice_at 0] = [] /\
  coverage_pct 0 0 = Raise ZeroDivisionError /\
  align [spice_at 0] [obsweb_at t2024] = Raise ZeroDivisionError.
Proof. repeat split. Qed.

(** C8, amended.  Computing the coverage statistic for an empty set of
    derived events in scope raises: the script stops with [MergeError] at
    the join when one of the two files has no row at all, and, when both
    files have rows (with sorted key columns) but no derived row is in
    scope, with [ZeroDivisionError] at the division, whose denominator is
    not guarded.  With rows in both files and at least one derived event in
    scope the script returns the aligned rows and the number of aligned
    rows over the number of rows in scope, times 100. *)
Theorem coverage_pct_unguarded
        (spice_file : list spice_row) (df_obsweb : list obsweb_row) :
  (spice_file = [] \/ df_obsweb = [] ->
   align spice_file df_obsweb = Raise MergeError) /\
  (spice_file <> [] -> df_obsweb <> [] ->
   sortedb (map Ingress_UTC (in_scope spice_file)) = true ->
   sortedb (map ingress df_obsweb) = true ->
   (in_scope spice_file = [] ->
    align spice_file df_obsweb = Raise ZeroDivisionError) /\
   (in_scope spice_file <> [] ->
    exists merged pct,
      align spice_file df_obsweb = Ok (merged, pct) /\
      (pct == inject_Z (Z.of_nat (List.length merged))
              / inject_Z (Z.of_nat (List.length (in_scope spice_file))) * 100)%Q)).
Proof.
  split; [apply align_untyped|].
  intros Hs Ho Hleft Hright. rewrite (align_typed _ _ Hs Ho).
  unfold align_frames. rewrite (merge_asof_sorted _ _ _ Hleft Hright). cbn [bind].
  split.
  - intros ->. reflexivity.
  - intros Hne. unfold coverage_pct, truediv.
    destruct (List.length (in_scope spice_file)) as [|n] eqn:El.
    + apply length_zero_iff_nil in El. contradiction.
    + cbn [bind]. eexists. eexists. split; [reflexivity|].
      rewrite length_map. reflexivity.
Qed.

Lemma coverage_pct_unguarded_witness :
  align [] [obsweb_at t2024] = Raise MergeError /\
  align [spice_at 0] [obsweb_at t2024] = Raise ZeroDivisionError /\
  exists merged pct,
    align [spice_at t2024; spice_at (t2024 + 10 * tolerance)] [obsweb_at t2024]
    = Ok (merged, pct) /\ (pct == 50)%Q.
Proof.
  split; [|split].
  - apply (proj1 (coverage_pct_unguarded [] [obsweb_at t2024])). now left.
  - apply (proj2 (coverage_pct_unguarded [spice_at 0] [obsweb_at t2024]));
      try discriminate; reflexivity.
  - destruct (proj2 (coverage_pct_unguarded
                       [spice_at t2024; spice_at (t2024 + 10 * tolerance)]
                       [obsweb_at t2024]))
      as [_ H]; try discriminate; try reflexivity.
    destruct H as [merged [pct [Ha Hp]]]; [vm_compute; discriminate|].
    exists merged, pct. split; [exact Ha|].
    vm_compute in Ha. injection Ha as <- <-. reflexivity.
Defined.

End AlignerProofs.


(** * Further properties of the three scripts *)

(** ** Coverage matcher: what coverage does and does not depend on *)

Module OPSWebExtra.
Import Py OPSWeb Requester OPSWebProofs.
Local Open Scope Z_scope.
Local Open Scope string_scope.

Lemma is_covered_incl (margin : Z) (df df' : list pass_row) (occ : occ_row) :
  (forall p, In p df -> In p df') ->
  is_covered margin df occ = true -> is_covered margin df' occ = true.
Proof.
  intros Hincl H. apply is_covered_spec in H as [[p [Hp Hcp]] [q [Hq Hcq]]].
  apply is_covered_spec. split; [exists p | exists q]; auto.
Qed.

Lemma is_covered_same_passes (margin : Z) (df df' : list pass_row) (occ : occ_row) :
  (forall p, In p df <-> In p df') ->
  is_covered margin df occ = is_covered margin df' occ.
Proof.
  intros Hsame.
  destruct (is_covered margin df occ) eqn:E1, (is_covered margin df' occ) eqn:E2;
    try reflexivity.
  - rewrite <- E2. symmetry. apply (is_covered_incl margin df); [apply Hsame | exact E1].
  - rewrite <- E1. apply (is_covered_incl margin df'); [apply Hsame | exact E2].
Qed.

Lemma df_passes_incl (passes passes' : list pass_row) :
  (forall p, In p passes -> In p passes') ->
  forall p, In p (df_passes passes) -> In p (df_passes passes').
Proof.
  intros Hincl p. rewrite !in_df_passes. intros [H1 H2]. split; auto.
Qed.

(** Adding passes to the catalogue never uncovers a window. *)
Theorem more_passes_keep_coverage
        (margin : Z) (passes passes' : list pass_row) (occ : occ_row)
        (Hincl : forall p, In p passes -> In p passes')
        (Hcov : is_covered margin (df_passes passes) occ = true) :
  is_covered margin (df_passes passes') occ = true.
Proof.
  apply (is_covered_incl margin (df_passes passes)); [|exact Hcov].
  now apply df_passes_incl.
Qed.

Lemma more_passes_keep_coverage_witness :
  is_covered ten_minutes (df_passes [klz_pass; abc_pass NaN]) window_10_20 = true.
Proof.
  apply (more_passes_keep_coverage ten_minutes [abc_pass NaN]).
  - intros p [<-|[]]. right. now left.
  - reflexivity.
Defined.

(** The table of covered windows does not depend on the order, nor on the
    repetition, of the pass records. *)
Theorem covered_ignores_pass_order
        (passes passes' : list pass_row) (df_occ : list occ_row)
        (Hsame : forall p, In p passes <-> In p passes') :
  covered_script passes df_occ = covered_script passes' df_occ.
Proof.
  unfold covered_script. rewrite !covered_filter. f_equal.
  apply filter_ext. intros occ. apply is_covered_same_passes.
  intros p. split; apply df_passes_incl; intros q; apply Hsame.
Qed.

Lemma covered_ignores_pass_order_witness :
  covered_script [klz_pass; abc_pass NaN] [window_10_20]
  = covered_script [abc_pass NaN; klz_pass; abc_pass NaN] [window_10_20].
Proof.
  apply covered_ignores_pass_order. intros p. simpl. tauto.
Defined.

Lemma contains_tracks (p : pass_row) (lo hi : timestamp) :
  contains p lo hi ->
  exists a b, lo = Ts a /\ hi = Ts b /\ (a <= b -> tracks p a /\ tracks p b).
Proof.
  unfold contains, tracks, contains.
  destruct (time_start_corr p) as [|s], (time_end_corr p) as [|e],
    lo as [|a], hi as [|b]; simpl; try tauto.
  intros [H1 H2]. exists a, b. repeat split; lia.
Qed.

(** A covered window has both its times present, and for a margin that is
    not negative the ingress instant, the instant one margin before it, the
    egress instant and the instant one margin after it are each inside the
    corrected interval of a candidate pass. *)
Theorem covered_instants_tracked
        (margin : Z) (df : list pass_row) (occ : occ_row)
        (Hmargin : 0 <= margin)
        (Hcov : is_covered margin df occ = true) :
  exists ing egr,
    occ_time_start occ = Ts ing /\ occ_time_end occ = Ts egr /\
    (exists p, In p df /\ tracks p (ing - margin) /\ tracks p ing) /\
    (exists q, In q df /\ tracks q egr /\ tracks q (egr + margin)).
Proof.
  apply is_covered_spec in Hcov as [[p [Hp Hcp]] [q [Hq Hcq]]].
  apply contains_tracks in Hcp as [a [b [Ha [Hb Hp']]]].
  apply contains_tracks in Hcq as [c [d [Hc [Hd Hq']]]].
  destruct (occ_time_start occ) as [|ing]; [discriminate|].
  destruct (occ_time_end occ) as [|egr]; [discriminate|].
  simpl in Ha, Hd. injection Ha as <-. injection Hb as <-.
  injection Hc as <-. injection Hd as <-.
  exists ing, egr. repeat split; try reflexivity.
  - exists p. split; [exact Hp | apply Hp'; lia].
  - exists q. split; [exact Hq | apply Hq'; lia].
Qed.

Lemma covered_instants_tracked_witness :
  exists ing egr,
    occ_time_start window_10_20 = Ts ing /\ occ_time_end window_10_20 = Ts egr /\
    (exists p, In p [abc_pass NaN] /\ tracks p (ing - ten_minutes) /\ tracks p ing) /\
    (exists q, In q [abc_pass NaN] /\ tracks q egr /\ tracks q (egr + ten_minutes)).
Proof.
  apply (covered_instants_tracked ten_minutes [abc_pass NaN] window_10_20).
  - unfold ten_minutes. lia.
  - reflexivity.
Defined.

(** Missing timestamps never count as coverage and never raise: a window
    with a missing time is not covered, and a pass with a missing start,
    end or light time changes nothing. *)
Theorem missing_times_never_cover
        (margin : Z) (df : list pass_row) (occ : occ_row) (p : pass_row) :
  (occ_time_start occ = NaT \/ occ_time_end occ = NaT ->
   is_covered margin df occ = false) /\
  (time_start p = NaT \/ time_end p = NaT \/ owlt_delta p = NaT ->
   is_covered margin (p :: df) occ = is_covered margin df occ).
Proof.
  split.
  - intros Hnat. destruct (is_covered margin df occ) eqn:E; [|reflexivity].
    apply is_covered_spec in E as [[p1 [_ H1]] [q1 [_ H2]]].
    apply contains_tracks in H1 as [a [b [Ha [Hb _]]]].
    apply contains_tracks in H2 as [c [d [Hc [Hd _]]]].
    destruct Hnat as [Hn|Hn]; rewrite Hn in *; discriminate.
  - intros Hnat.
    assert (Hs : time_start_corr p = NaT \/ time_end_corr p = NaT).
    { unfold time_start_corr, time_end_corr.
      destruct (time_start p), (time_end p), (owlt_delta p); simpl; auto;
        destruct Hnat as [H|[H|H]]; discriminate. }
    unfold is_covered, mask_ing, mask_egr, any, ts_geb. cbn [map existsb].
    assert (Hi : ts_leb (time_start_corr p) (ing_start_req margin occ)
                 && ts_leb (ing_end_req occ) (time_end_corr p) = false).
    { destruct Hs as [-> | ->]; [reflexivity|].
      rewrite andb_false_iff. right. now destruct (ing_end_req occ). }
    assert (He : ts_leb (time_start_corr p) (egr_start_req occ)
                 && ts_leb (egr_end_req margin occ) (time_end_corr p) = false).
    { destruct Hs as [-> | ->]; [reflexivity|].
      rewrite andb_false_iff. right. now destruct (egr_end_req margin occ). }
    now rewrite Hi, He.
Qed.

Lemma missing_times_never_cover_witness :
  is_covered ten_minutes [abc_pass NaN] (mkOcc NaT (Ts (minutes 20))) = false /\
  is_covered ten_minutes
    [mkPass (Str "ABC") NaN (Ts (minutes 0)) (Ts (minutes 30)) NaT] window_10_20
  = false.
Proof.
  pose proof (missing_times_never_cover ten_minutes [abc_pass NaN]
                (mkOcc NaT (Ts (minutes 20))) (abc_pass NaN)) as [H1 _].
  pose proof (missing_times_never_cover ten_minutes [] window_10_20
                (mkPass (Str "ABC") NaN (Ts (minutes 0)) (Ts (minutes 30)) NaT))
    as [_ H2].
  split.
  - apply H1. now left.
  - rewrite H2; [reflexivity | right; right; reflexivity].
Defined.

(** Coverage looks at the two margin intervals only: a pass that ends at
    the ingress and a pass that starts at the egress cover the window,
    though no pass tracks any instant strictly between the two. *)
Theorem coverage_allows_gap (ing egr margin : Z) (Hmargin : 0 <= margin) :
  let before := mkPass (Str "ABC") NaN (Ts (ing - margin)) (Ts ing) (Ts 0) in
  let after := mkPass (Str "ABC") NaN (Ts egr) (Ts (egr + margin)) (Ts 0) in
  is_covered margin (df_passes [before; after]) (mkOcc (Ts ing) (Ts egr)) = true /\
  forall t, ing < t < egr ->
    forall p, In p (df_passes [before; after]) -> ~ tracks p t.
Proof.
  intros before after. split.
  - apply is_covered_spec. split; [exists before | exists after];
      (split; [apply in_df_passes; repeat split; simpl; auto|]);
      unfold contains; simpl; lia.
  - intros t Ht p Hp. apply in_df_passes in Hp as [[<-|[<-|[]]] _];
      unfold tracks, contains; simpl; lia.
Qed.

Lemma coverage_allows_gap_witness :
  is_covered ten_minutes
    (df_passes [mkPass (Str "ABC") NaN (Ts (minutes 10 - ten_minutes))
                       (Ts (minutes 10)) (Ts 0);
                mkPass (Str "ABC") NaN (Ts (minutes 20))
                       (Ts (minutes 20 + ten_minutes)) (Ts 0)])
    window_10_20 = true.
Proof.
  apply (coverage_allows_gap (minutes 10) (minutes 20) ten_minutes).
  unfold ten_minutes. lia.
Defined.

End OPSWebExtra.


(** ** The requester script: requests, frames, sorting *)

Module RequesterProofs.
Import Py OPSWeb Requester OPSWebProofs OPSWebExtra.
Local Open Scope Z_scope.

(** *** A stable sort for a total and transitive order *)

Section Sorting.
Context {row : Type}.
Variable leb : row -> row -> bool.
Hypothesis leb_total : forall a b, leb a b = false -> leb b a = true.
Hypothesis leb_trans : forall a b c, leb a b = true -> leb b c = true -> leb a c = true.

Let le (a b : row) : Prop := leb a b = true.

Lemma insert_perm (x : row) (l : list row) : Permutation (x :: l) (insert leb x l).
Proof.
  induction l as [|y l IH]; simpl; [apply Permutation_refl|].
  destruct (leb x y); [apply Permutation_refl|].
  eapply perm_trans; [apply perm_swap|]. now apply perm_skip.
Qed.

Lemma stable_sort_perm (l : list row) : Permutation l (stable_sort leb l).
Proof.
  induction l as [|x l IH]; simpl; [constructor|].
  eapply perm_trans; [apply perm_skip, IH | apply insert_perm].
Qed.

Lemma insert_sorted (x : row) (l : list row) :
  StronglySorted le l -> StronglySorted le (insert leb x l).
Proof.
  induction 1 as [|y l Hs IH Hall]; simpl; [repeat constructor|].
  destruct (leb x y) eqn:E.
  - constructor; [now constructor|]. constructor; [exact E|].
    eapply Forall_impl; [|exact Hall]. intros z Hz. now apply (leb_trans x y z).
  - constructor; [exact IH|]. apply Forall_forall. intros z Hz.
    apply (Permutation_in _ (Permutation_sym (insert_perm x l))) in Hz.
    destruct Hz as [<-|Hz]; [now apply leb_total|].
    rewrite Forall_forall in Hall. now apply Hall.
Qed.

Lemma stable_sort_sorted (l : list row) : StronglySorted le (stable_sort leb l).
Proof.
  induction l as [|x l IH]; simpl; [constructor | now apply insert_sorted].
Qed.

(** A sorted list is the only sorted arrangement of its elements when ties
    are equal rows. *)
Lemma sorted_unique (l l' : list row) :
  (forall a b, leb a b = true -> leb b a = true -> a = b) ->
  Permutation l l' -> StronglySorted le l -> StronglySorted le l' -> l = l'.
Proof.
  intros Hanti. revert l'.
  induction l as [|a l IH]; intros l' Hp Hs Hs'.
  - apply Permutation_nil in Hp. now subst.
  - destruct l' as [|b l'];
      [apply Permutation_sym, Permutation_nil in Hp; discriminate|].
    apply StronglySorted_inv in Hs as [Hs Ha].
    apply StronglySorted_inv in Hs' as [Hs' Hb].
    rewrite Forall_forall in Ha, Hb.
    assert (Hab : a = b).
    { assert (Hin : In a (b :: l'))
        by (apply (Permutation_in _ Hp); now left).
      assert (Hin' : In b (a :: l))
        by (apply (Permutation_in _ (Permutation_sym Hp)); now left).
      destruct Hin as [->|Hin]; [reflexivity|].
      destruct Hin' as [->|Hin']; [reflexivity|].
      apply Hanti; [now apply Ha | now apply Hb]. }
    subst b. f_equal. apply IH; [|exact Hs|exact Hs'].
    now apply Permutation_cons_inv in Hp.
Qed.

End Sorting.

Lemma filter_perm {A : Type} (f : A -> bool) (l l' : list A) :
  Permutation l l' -> Permutation (filter f l) (filter f l').
Proof.
  induction 1 as [|x l l' Hp IH|x y l|l l' l'' H1 IH1 H2 IH2]; simpl.
  - constructor.
  - destruct (f x); [now constructor | exact IH].
  - destruct (f x), (f y); try apply Permutation_refl. apply perm_swap.
  - eapply perm_trans; eassumption.
Qed.

Lemma filter_sorted {A : Type} (R : A -> A -> Prop) (f : A -> bool) (l : list A) :
  StronglySorted R l -> StronglySorted R (filter f l).
Proof.
  induction 1 as [|x l Hs IH Hall]; simpl; [constructor|].
  destruct (f x); [|exact IH]. constructor; [exact IH|].
  rewrite Forall_forall in *. intros y Hy. apply Hall.
  now apply filter_In in Hy.
Qed.

Lemma map_sorted {A B : Type} (R : B -> B -> Prop) (g : A -> B) (l : list A) :
  StronglySorted (fun a b => R (g a) (g b)) l -> StronglySorted R (map g l).
Proof.
  induction 1 as [|x l Hs IH Hall]; simpl; constructor; [exact IH|].
  apply Forall_map. exact Hall.
Qed.

(** *** The order of the keys *)

Ltac key_cases :=
  unfold key_leb, ts_ltb; simpl;
  repeat match goal with
         | |- context [(?a <? ?b)] => destruct (Z.ltb_spec a b)
         end;
  simpl; intros; try discriminate; try reflexivity; try lia.

Lemma key_leb_total k1 k2 : key_leb k1 k2 = false -> key_leb k2 k1 = true.
Proof.
  destruct k1 as [[|e1] [|s1]], k2 as [[|e2] [|s2]]; key_cases.
Qed.

Lemma key_leb_trans k1 k2 k3 :
  key_leb k1 k2 = true -> key_leb k2 k3 = true -> key_leb k1 k3 = true.
Proof.
  destruct k1 as [[|e1] [|s1]], k2 as [[|e2] [|s2]], k3 as [[|e3] [|s3]];
    key_cases.
Qed.

Lemma key_leb_antisym k1 k2 :
  key_leb k1 k2 = true -> key_leb k2 k1 = true -> k1 = k2.
Proof.
  destruct k1 as [[|e1] [|s1]], k2 as [[|e2] [|s2]]; key_cases;
    repeat match goal with
           | |- (?a, ?b) = (?c, ?d) => f_equal
           | |- Ts ?a = Ts ?b => f_equal; lia
           end.
Qed.

Lemma occ_key_injective (a b : occ_row) : occ_key a = occ_key b -> a = b.
Proof. destruct a, b. unfold occ_key. simpl. congruence. Qed.

(** *** The script *)

Local Open Scope string_scope.

Lemma opsw_request_eq {A : Type} (r : response A) :
  opsw_request r = if (status_code r =? 200)%Z then json r else [].
Proof.
  unfold opsw_request. destruct (status_code r =? 200)%Z; simpl; [|reflexivity].
  now destruct (json r).
Qed.

Lemma opsw_request_nil {A : Type} (r : response A) :
  opsw_request r = [] <-> status_code r <> 200 \/ json r = [].
Proof.
  rewrite opsw_request_eq. destruct (Z.eqb_spec (status_code r) 200) as [E|E].
  - split; [now right | intros [H|H]; [contradiction | exact H]].
  - split; [now left | reflexivity].
Qed.

Lemma sort_passes_frame (passes : list pass_row) :
  sort_values pass_key sort_labels (DataFrame pass_fields passes)
  = match passes with
    | [] => KeyError "time_end"
    | _ => Done (mkFrame pass_fields
                   (stable_sort (fun a b => key_leb (pass_key a) (pass_key b)) passes))
    end.
Proof. now destruct passes. Qed.

Lemma sort_occ_frame (occultations : list occ_row) :
  sort_values occ_key sort_labels (DataFrame occ_fields occultations)
  = match occultations with
    | [] => KeyError "time_end"
    | _ => Done (mkFrame occ_fields
                   (stable_sort (fun a b => key_leb (occ_key a) (occ_key b))
                                occultations))
    end.
Proof. now destruct occultations. Qed.

Lemma covered_frame (covered : list (timestamp * timestamp)) :
  check_labels (DataFrame covered_labels covered) covered_labels
  = match covered with
    | [] => KeyError "ingress"
    | _ => Done tt
    end.
Proof. now destruct covered. Qed.

(** The script, one case after the other. *)
Lemma script_eq (rp : response pass_row) (ro : response occ_row) :
  script rp ro =
  match opsw_request rp with
  | [] => KeyError "time_end"
  | _ :: _ =>
      match opsw_request ro with
      | [] => KeyError "time_end"
      | _ :: _ =>
          let df_passes :=
            df_passes (stable_sort (fun a b => key_leb (pass_key a) (pass_key b))
                                   (opsw_request rp)) in
          let df_occ :=
            stable_sort (fun a b => key_leb (occ_key a) (occ_key b))
                        (opsw_request ro) in
          match covered ten_minutes df_passes df_occ with
          | [] => KeyError "ingress"
          | _ :: _ => Done (mkTables df_passes df_occ
                              (covered ten_minutes df_passes df_occ))
          end
      end
  end.
Proof.
  unfold script. rewrite sort_passes_frame.
  destruct (opsw_request rp) as [|p ps]; [reflexivity|]. cbn [and_then rows].
  rewrite sort_occ_frame.
  destruct (opsw_request ro) as [|o os]; [reflexivity|]. cbn [and_then rows].
  rewrite covered_frame. cbv zeta.
  now destruct (covered ten_minutes _ _).
Qed.

Lemma sorted_passes_same (passes : list pass_row) (p : pass_row) :
  In p (df_passes (stable_sort (fun a b => key_leb (pass_key a) (pass_key b)) passes))
  <-> In p (df_passes passes).
Proof.
  split; apply df_passes_incl; intros q Hq.
  - eapply Permutation_in; [apply Permutation_sym, stable_sort_perm | exact Hq].
  - eapply Permutation_in; [apply stable_sort_perm | exact Hq].
Qed.

Lemma covered_nil_iff (margin : Z) (df : list pass_row) (df_occ : list occ_row) :
  covered margin df df_occ = [] <->
  forall occ, In occ df_occ -> is_covered margin df occ = false.
Proof.
  rewrite covered_filter. split.
  - intros H occ Hin. destruct (is_covered margin df occ) eqn:E; [|reflexivity].
    assert (Hf : In occ (filter (is_covered margin df) df_occ))
      by (apply filter_In; tauto).
    apply (in_map (fun o => (occ_time_start o, occ_time_end o))) in Hf.
    rewrite H in Hf. destruct Hf.
  - intros H. induction df_occ as [|o os IH]; [reflexivity|]. simpl.
    rewrite (H o) by now left. apply IH. intros occ Hin. apply H. now right.
Qed.

(** A request that fails, or that finds nothing, is reported by
    [opsw_request] as an empty list, and the script then stops with a
    [KeyError] for ['time_end'] when it sorts the frame built from it. *)
Theorem failed_request_stops_script
        (rp : response pass_row) (ro : response occ_row)
        (Hfail : status_code rp <> 200 \/ json rp = [] \/
                 status_code ro <> 200 \/ json ro = []) :
  script rp ro = KeyError "time_end".
Proof.
  rewrite script_eq.
  destruct (opsw_request rp) as [|p ps] eqn:Ep; [reflexivity|].
  destruct (opsw_request ro) as [|o os] eqn:Eo; [reflexivity|].
  exfalso.
  assert (Hp : opsw_request rp <> []) by (rewrite Ep; discriminate).
  assert (Ho : opsw_request ro <> []) by (rewrite Eo; discriminate).
  rewrite opsw_request_nil in Hp. rewrite opsw_request_nil in Ho. tauto.
Qed.

Lemma failed_request_stops_script_witness :
  script (mkResponse 503 [klz_pass]) (mkResponse 200 [window_10_20])
  = KeyError "time_end".
Proof.
  apply failed_request_stops_script. left. discriminate.
Defined.

(** The script reaches its output exactly when both requests succeed and
    some reported window is covered by the admitted passes; when both
    requests bring records but no window is covered, it stops with a
    [KeyError] for ['ingress'] when it formats the empty covered table. *)
Theorem script_returns_iff (rp : response pass_row) (ro : response occ_row) :
  ((exists out, script rp ro = Done out) <->
   status_code rp = 200 /\ status_code ro = 200 /\
   exists occ, In occ (json ro) /\
               is_covered ten_minutes (df_passes (json rp)) occ = true) /\
  (status_code rp = 200 -> json rp <> [] ->
   status_code ro = 200 -> json ro <> [] ->
   (forall occ, In occ (json ro) ->
                is_covered ten_minutes (df_passes (json rp)) occ = false) ->
   script rp ro = KeyError "ingress").
Proof.
  assert (Hcov : forall ps os,
    (covered ten_minutes
       (df_passes (stable_sort (fun a b => key_leb (pass_key a) (pass_key b)) ps))
       (stable_sort (fun a b => key_leb (occ_key a) (occ_key b)) os) = [] <->
     forall occ, In occ os -> is_covered ten_minutes (df_passes ps) occ = false)).
  { intros ps os. rewrite covered_nil_iff. split; intros H occ Hin.
    - rewrite <- (is_covered_same_passes _ _ _ _ (sorted_passes_same ps)).
      apply H. eapply Permutation_in; [apply stable_sort_perm | exact Hin].
    - rewrite (is_covered_same_passes _ _ _ _ (sorted_passes_same ps)).
      apply H. eapply Permutation_in;
        [apply Permutation_sym, stable_sort_perm | exact Hin]. }
  rewrite script_eq, !opsw_request_eq. split.
  - destruct (Z.eqb_spec (status_code rp) 200) as [Ep|Ep];
      [|split; [intros [out H]; discriminate | tauto]].
    destruct (json rp) as [|p ps] eqn:Ejp.
    { split; [intros [out H]; discriminate|].
      intros [_ [_ [occ [_ H]]]]. discriminate. }
    destruct (Z.eqb_spec (status_code ro) 200) as [Eo|Eo];
      [|split; [intros [out H]; discriminate | tauto]].
    destruct (json ro) as [|o os] eqn:Ejo.
    { split; [intros [out H]; discriminate|].
      intros [_ [_ [occ [[] _]]]]. }
    cbv zeta. specialize (Hcov (p :: ps) (o :: os)).
    destruct (covered ten_minutes _ _) as [|w ws].
    + split; [intros [out H]; discriminate|].
      intros [_ [_ [occ [Hin Hc]]]].
      rewrite (proj1 Hcov eq_refl occ Hin) in Hc. discriminate.
    + split; [|intros _; eexists; reflexivity].
      intros _. split; [exact Ep | split; [exact Eo|]].
      destruct (existsb (is_covered ten_minutes (df_passes (p :: ps))) (o :: os))
        eqn:Ex.
      * apply existsb_exists in Ex. exact Ex.
      * exfalso. assert (Hnil : w :: ws = []); [|discriminate].
        apply Hcov. intros occ Hin.
        destruct (is_covered ten_minutes (df_passes (p :: ps)) occ) eqn:Ec;
          [|reflexivity].
        rewrite <- Ex. symmetry. apply existsb_exists. now exists occ.
  - intros -> Hjp -> Hjo Hnone. rewrite !Z.eqb_refl.
    destruct (json rp) as [|p ps]; [contradiction|].
    destruct (json ro) as [|o os]; [contradiction|].
    cbv zeta. now rewrite (proj2 (Hcov (p :: ps) (o :: os)) Hnone).
Qed.

Lemma script_returns_iff_witness :
  script (mkResponse 200 [klz_pass]) (mkResponse 200 [window_10_20])
  = KeyError "ingress".
Proof.
  apply (proj2 (script_returns_iff (mkResponse 200 [klz_pass])
                                   (mkResponse 200 [window_10_20]))).
  - reflexivity.
  - discriminate.
  - reflexivity.
  - discriminate.
  - intros occ Hin. destruct Hin as [<-|[]]. reflexivity.
Defined.

Lemma script_done (rp : response pass_row) (ro : response occ_row) (out : tables) :
  script rp ro = Done out ->
  status_code rp = 200 /\ status_code ro = 200 /\
  out = mkTables
          (df_passes (stable_sort (fun a b => key_leb (pass_key a) (pass_key b))
                                  (json rp)))
          (stable_sort (fun a b => key_leb (occ_key a) (occ_key b)) (json ro))
          (covered ten_minutes
             (df_passes (stable_sort (fun a b => key_leb (pass_key a) (pass_key b))
                                     (json rp)))
             (stable_sort (fun a b => key_leb (occ_key a) (occ_key b)) (json ro))) /\
  covered_occultations out <> [].
Proof.
  rewrite script_eq, !opsw_request_eq.
  destruct (Z.eqb_spec (status_code rp) 200) as [Ep|Ep]; [|discriminate].
  destruct (json rp) as [|p ps]; [discriminate|].
  destruct (Z.eqb_spec (status_code ro) 200) as [Eo|Eo]; [|discriminate].
  destruct (json ro) as [|o os]; [discriminate|].
  cbv zeta. destruct (covered ten_minutes _ _) as [|w ws] eqn:Ec; [discriminate|].
  intros H. injection H as <-. repeat split; try assumption.
  discriminate.
Qed.

Lemma stable_sort_by_key {row : Type} (key : row -> timestamp * timestamp)
      (l : list row) :
  sorted_by key (stable_sort (fun a b => key_leb (key a) (key b)) l).
Proof.
  apply (stable_sort_sorted (fun a b => key_leb (key a) (key b))).
  - intros a b. apply key_leb_total.
  - intros a b c. apply key_leb_trans.
Qed.

(** When the script returns, its occultation table holds the records of
    the response and its passes table the admitted passes of the response,
    both sorted by end time, then start time, missing values last; the
    covered table lists the covered windows of the occultation table in
    that same order. *)
Theorem script_tables_sorted
        (rp : response pass_row) (ro : response occ_row) (out : tables)
        (Hdone : script rp ro = Done out) :
  Permutation (json ro) (all_occultations out) /\
  sorted_by occ_key (all_occultations out) /\
  Permutation (df_passes (json rp)) (valid_passes out) /\
  sorted_by pass_key (valid_passes out) /\
  (forall p, In p (valid_passes out) -> ~ excluded p) /\
  covered_occultations out
  = map (fun occ => (occ_time_start occ, occ_time_end occ))
        (filter (is_covered ten_minutes (valid_passes out)) (all_occultations out)) /\
  sorted_by covered_key (covered_occultations out).
Proof.
  apply script_done in Hdone as [_ [_ [-> _]]]. cbn [all_occultations valid_passes
    covered_occultations].
  split; [apply stable_sort_perm|].
  split; [apply stable_sort_by_key|].
  split; [unfold df_passes, drop_mspa, drop_groundstations;
          apply filter_perm, filter_perm, stable_sort_perm|].
  split; [unfold df_passes, drop_mspa, drop_groundstations;
          apply filter_sorted, filter_sorted, stable_sort_by_key|].
  split; [intros p Hp; now apply df_passes_not_excluded in Hp|].
  split; [apply covered_filter|].
  rewrite covered_filter. unfold sorted_by.
  apply (map_sorted (fun a b => key_le (covered_key a) (covered_key b))).
  apply filter_sorted. apply (stable_sort_by_key occ_key).
Qed.

Lemma script_tables_sorted_witness :
  exists out,
    script (mkResponse 200 [abc_pass NaN; klz_pass])
           (mkResponse 200 [window_10_20]) = Done out /\
    sorted_by covered_key (covered_occultations out) /\
    valid_passes out = [abc_pass NaN].
Proof.
  eexists. split; [reflexivity|]. split; [|reflexivity].
  apply (script_tables_sorted (mkResponse 200 [abc_pass NaN; klz_pass])
                              (mkResponse 200 [window_10_20])).
  reflexivity.
Defined.

(** The occultation table and the covered table do not depend on the order
    in which the two responses list their records, and the passes table
    holds the same passes. *)
Theorem script_ignores_record_order
        (rp rp' : response pass_row) (ro ro' : response occ_row) (out : tables)
        (Hsp : status_code rp' = status_code rp)
        (Hso : status_code ro' = status_code ro)
        (Hpp : Permutation (json rp) (json rp'))
        (Hpo : Permutation (json ro) (json ro'))
        (Hdone : script rp ro = Done out) :
  exists out',
    script rp' ro' = Done out' /\
    all_occultations out' = all_occultations out /\
    covered_occultations out' = covered_occultations out /\
    Permutation (valid_passes out) (valid_passes out').
Proof.
  apply script_done in Hdone as [Ep [Eo [-> Hne]]].
  cbn [covered_occultations] in Hne.
  set (sortp := stable_sort (fun a b => key_leb (pass_key a) (pass_key b))) in *.
  set (sorto := stable_sort (fun a b => key_leb (occ_key a) (occ_key b))) in *.
  assert (Hocc : sorto (json ro') = sorto (json ro)).
  { apply (sorted_unique (fun a b => key_leb (occ_key a) (occ_key b))).
    - intros a b H1 H2. apply occ_key_injective. now apply key_leb_antisym.
    - eapply perm_trans; [apply Permutation_sym, stable_sort_perm|].
      eapply perm_trans; [apply Permutation_sym, Hpo|]. apply stable_sort_perm.
    - apply (stable_sort_by_key occ_key).
    - apply (stable_sort_by_key occ_key). }
  assert (Hpass : Permutation (df_passes (sortp (json rp)))
                              (df_passes (sortp (json rp')))).
  { unfold df_passes, drop_mspa, drop_groundstations.
    apply filter_perm, filter_perm.
    eapply perm_trans; [apply Permutation_sym, stable_sort_perm|].
    eapply perm_trans; [apply Hpp|]. apply stable_sort_perm. }
  assert (Hcov : covered ten_minutes (df_passes (sortp (json rp'))) (sorto (json ro'))
                 = covered ten_minutes (df_passes (sortp (json rp))) (sorto (json ro))).
  { rewrite Hocc, !covered_filter. f_equal. apply filter_ext. intros occ.
    apply is_covered_same_passes. intros p. split; apply Permutation_in;
      [apply Permutation_sym|]; exact Hpass. }
  rewrite script_eq, !opsw_request_eq, Hsp, Hso, Ep, Eo, !Z.eqb_refl.
  destruct (json rp') as [|p ps] eqn:Ejp.
  { exfalso. apply Hne. apply Permutation_sym, Permutation_nil in Hpp.
    rewrite Hpp. unfold sortp. simpl. apply covered_nil_iff.
    intros occ _. reflexivity. }
  destruct (json ro') as [|o os] eqn:Ejo.
  { exfalso. apply Hne. apply Permutation_sym, Permutation_nil in Hpo.
    rewrite Hpo. reflexivity. }
  cbv zeta. fold sortp sorto. rewrite Hcov.
  destruct (covered ten_minutes (df_passes (sortp (json rp))) (sorto (json ro)))
    as [|w ws] eqn:Ec; [contradiction|].
  eexists. split; [reflexivity|].
  cbn [all_occultations covered_occultations valid_passes].
  repeat split; [exact Hocc | exact Hpass].
Qed.

Lemma script_ignores_record_order_witness :
  exists out',
    script (mkResponse 200 [klz_pass; abc_pass NaN])
           (mkResponse 200 [window_10_20]) = Done out' /\
    covered_occultations out' = [(Ts (minutes 10), Ts (minutes 20))].
Proof.
  destruct (script_ignores_record_order
              (mkResponse 200 [abc_pass NaN; klz_pass])
              (mkResponse 200 [klz_pass; abc_pass NaN])
              (mkResponse 200 [window_10_20]) (mkResponse 200 [window_10_20])
              (mkTables [abc_pass NaN] [window_10_20]
                        [(Ts (minutes 10), Ts (minutes 20))])
              eq_refl eq_refl (perm_swap _ _ _) (Permutation_refl _) eq_refl)
    as [out' [H1 [_ [H2 _]]]].
  exists out'. split; [exact H1 | exact H2].
Defined.

End RequesterProofs.

(** ** Crossing detector: what the events are *)

Module DetectorExtra.
Import Py Detector Table DetectorProofs.
Local Open Scope Q_scope.

Lemma mod360_range (x : Q) : 0 <= mod360 x /\ mod360 x < 360.
Proof.
  unfold mod360.
  pose proof (Qfloor_le (x / 360)) as Hlo.
  pose proof (Qlt_floor (x / 360)) as Hhi.
  rewrite inject_Z_plus in Hhi. change (inject_Z 1) with 1 in Hhi.
  assert (Hx : x == 360 * (x / 360)) by (field; discriminate).
  set (f := inject_Z (Qfloor (x / 360))) in *.
  set (q := x / 360) in *. split; lra.
Qed.

Lemma pairs_cons (a b : Q) (l : list Q) :
  combine (but_last (a :: b :: l)) (from_1 (a :: b :: l))
  = (a, b) :: combine (but_last (b :: l)) (from_1 (b :: l)).
Proof. reflexivity. Qed.

Lemma ing_mask_cons radius a b l :
  ing_mask radius (a :: b :: l)
  = (gtb a radius && leb b radius) :: ing_mask radius (b :: l).
Proof. unfold ing_mask. now rewrite pairs_cons. Qed.

Lemma egr_mask_cons radius a b l :
  egr_mask radius (a :: b :: l)
  = (leb a radius && gtb b radius) :: egr_mask radius (b :: l).
Proof. unfold egr_mask. now rewrite pairs_cons. Qed.

Lemma nth_pairs (l : list Q) (j : nat) (a b : Q) :
  nth_error (combine (but_last l) (from_1 l)) j = Some (a, b) <->
  nth_error l j = Some a /\ nth_error l (S j) = Some b.
Proof.
  revert j. induction l as [|x [|y l] IH]; intros j.
  - simpl. destruct j; split; [discriminate | intros [H _]; discriminate
                                | discriminate | intros [H _]; discriminate].
  - cbn. destruct j as [|[|j]]; split;
      try discriminate; intros [_ H]; discriminate.
  - rewrite pairs_cons. destruct j as [|j].
    + simpl. split; [intros H; injection H as <- <-; tauto|].
      intros [H1 H2]. congruence.
    + change (nth_error ((x, y) :: ?t) (S j)) with (nth_error t j).
      rewrite IH. reflexivity.
Qed.

Lemma where_from_spec (i : nat) (mask : list bool) (k : nat) :
  In k (where_from i mask) <->
  exists j, k = (i + j)%nat /\ nth_error mask j = Some true.
Proof.
  revert i. induction mask as [|b rest IH]; intros i; simpl.
  - split; [intros [] | intros [j [_ H]]; destruct j; discriminate].
  - assert (Hrest : In k (where_from (S i) rest) <->
                    exists j, k = (i + S j)%nat /\ nth_error rest j = Some true).
    { rewrite IH. split; intros [j [H1 H2]]; exists j; split; try assumption; lia. }
    destruct b; simpl; rewrite ?Hrest; split.
    + intros [<-|[j [H1 H2]]]; [exists O; split; [lia | reflexivity]|].
      exists (S j). now split.
    + intros [[|j] [H1 H2]]; [left; lia | right; exists j; now split].
    + intros [j [H1 H2]]. exists (S j). now split.
    + intros [[|j] [H1 H2]]; [discriminate | exists j; now split].
Qed.

Lemma crossing_indices_spec (mask : list bool) (k : nat) :
  In k (crossing_indices mask) <->
  exists j, k = S j /\ nth_error mask j = Some true.
Proof.
  unfold crossing_indices. rewrite in_map_iff. split.
  - intros [k' [<- Hk']]. apply where_from_spec in Hk' as [j [-> Hj]].
    exists j. now split.
  - intros [j [-> Hj]]. exists j. split; [reflexivity|].
    apply where_from_spec. exists j. now split.
Qed.

Lemma gtb_lt a b : gtb a b = true <-> b < a.
Proof. apply (ltb_lt b a). Qed.

Lemma leb_le a b : leb a b = true <-> a <= b.
Proof. apply Qle_bool_iff. Qed.

Lemma ing_mask_spec radius (ips : list Q) (j : nat) :
  nth_error (ing_mask radius ips) j = Some true <->
  exists a b, nth_error ips j = Some a /\ nth_error ips (S j) = Some b /\
              radius < a /\ b <= radius.
Proof.
  unfold ing_mask. rewrite nth_error_map. split.
  - destruct (nth_error (combine _ _) j) as [[a b]|] eqn:E; [|discriminate].
    simpl. intros H. injection H as H. apply andb_true_iff in H as [H1 H2].
    apply nth_pairs in E as [Ea Eb]. exists a, b.
    rewrite <- gtb_lt, <- leb_le. tauto.
  - intros [a [b [Ha [Hb [H1 H2]]]]].
    rewrite (proj2 (nth_pairs ips j a b) (conj Ha Hb)). simpl.
    now rewrite (proj2 (gtb_lt a radius) H1), (proj2 (leb_le b radius) H2).
Qed.

Lemma egr_mask_spec radius (ips : list Q) (j : nat) :
  nth_error (egr_mask radius ips) j = Some true <->
  exists a b, nth_error ips j = Some a /\ nth_error ips (S j) = Some b /\
              a <= radius /\ radius < b.
Proof.
  unfold egr_mask. rewrite nth_error_map. split.
  - destruct (nth_error (combine _ _) j) as [[a b]|] eqn:E; [|discriminate].
    simpl. intros H. injection H as H. apply andb_true_iff in H as [H1 H2].
    apply nth_pairs in E as [Ea Eb]. exists a, b.
    rewrite <- gtb_lt, <- leb_le. tauto.
  - intros [a [b [Ha [Hb [H1 H2]]]]].
    rewrite (proj2 (nth_pairs ips j a b) (conj Ha Hb)). simpl.
    now rewrite (proj2 (leb_le a radius) H1), (proj2 (gtb_lt b radius) H2).
Qed.

Lemma Forall2_in_right {A B : Type} (P : A -> B -> Prop) l r y :
  Forall2 P l r -> In y r -> exists x, In x l /\ P x y.
Proof.
  induction 1 as [|x y' l r Hxy H IH]; [intros []|].
  intros [<-|Hin]; [exists x; split; [now left | exact Hxy]|].
  destruct (IH Hin) as [x' [Hx' Hp]]. exists x'. split; [now right | exact Hp].
Qed.

Lemma Forall2_in_left {A B : Type} (P : A -> B -> Prop) l r x :
  Forall2 P l r -> In x l -> exists y, In y r /\ P x y.
Proof.
  induction 1 as [|x' y l r Hxy H IH]; [intros []|].
  intros [<-|Hin]; [exists y; split; [now left | exact Hxy]|].
  destruct (IH Hin) as [y' [Hy' Hp]]. exists y'. split; [now right | exact Hp].
Qed.

Section Events.
Context {vec : Type}.
Variable E : ephemeris vec.

(** The rows the inner loop builds are the event rows of the samples at
    the crossing indices. *)
Lemma crossing_rows_events (valid : list sample) (idxs : list nat)
      (rows : list event) :
  crossing_rows E (map sample_et valid) (map sample_tanpt valid)
                (map sample_sza valid) idxs = Ok rows ->
  Forall2 (fun k r => exists s, nth_error valid k = Some s /\ r = event_of E s)
          idxs rows.
Proof.
  revert rows. induction idxs as [|k ks IH]; intros rows; cbn [crossing_rows].
  - intros H. injection H as <-. constructor.
  - unfold getitem. rewrite !nth_error_map.
    destruct (nth_error valid k) as [s|] eqn:Hs; [|discriminate].
    cbn [option_map bind].
    destruct (reclat_deg E (sample_tanpt s)) as [lon lat] eqn:Hr. cbn [bind].
    destruct (crossing_rows E _ _ _ ks) as [out|e]; [|discriminate].
    cbn [bind]. intros H. injection H as <-.
    constructor; [|now apply IH]. exists s. split; [exact Hs|].
    unfold event_of. now rewrite Hr.
Qed.

Lemma reduce_crossings_rows (radius : Q) (valid : list sample)
      (ingress egress : list event) :
  reduce_crossings E radius valid = Ok (ingress, egress) ->
  valid <> [] /\
  Forall2 (fun k r => exists s, nth_error valid k = Some s /\ r = event_of E s)
          (crossing_indices (ing_mask radius (map sample_ip valid))) ingress /\
  Forall2 (fun k r => exists s, nth_error valid k = Some s /\ r = event_of E s)
          (crossing_indices (egr_mask radius (map sample_ip valid))) egress.
Proof.
  unfold reduce_crossings.
  destruct valid as [|s0 rest]; [discriminate|].
  set (valid := s0 :: rest) in *.
  destruct (crossing_rows E _ _ _ (crossing_indices (ing_mask _ _)))
    as [ing|e] eqn:Hing; [|discriminate].
  destruct (crossing_rows E _ _ _ (crossing_indices (egr_mask _ _)))
    as [egr|e] eqn:Hegr; [|discriminate].
  cbn [bind]. intros H. injection H as <- <-.
  split; [discriminate|].
  split; now apply crossing_rows_events.
Qed.

Lemma sample_ip_nth (valid : list (@sample vec)) (j : nat) (a : Q) :
  nth_error (map sample_ip valid) j = Some a <->
  exists s, nth_error valid j = Some s /\ sample_ip s = a.
Proof.
  rewrite nth_error_map. destruct (nth_error valid j) as [s|]; simpl.
  - split; [intros H; injection H as <-; now exists s|].
    intros [s' [H <-]]. congruence.
  - split; [discriminate | intros [s' [H _]]; discriminate].
Qed.

Lemma reduce_crossings_events (radius : Q) (valid : list sample)
      (ingress egress : list event)
      (Hret : reduce_crossings E radius valid = Ok (ingress, egress)) :
  (forall e, In e ingress <->
     exists j s s', nth_error valid j = Some s /\ nth_error valid (S j) = Some s' /\
                    radius < sample_ip s /\ sample_ip s' <= radius /\
                    e = event_of E s') /\
  (forall e, In e egress <->
     exists j s s', nth_error valid j = Some s /\ nth_error valid (S j) = Some s' /\
                    sample_ip s <= radius /\ radius < sample_ip s' /\
                    e = event_of E s').
Proof.
  apply reduce_crossings_rows in Hret as [_ [Hing Hegr]].
  split; intros e; split.
  - intros Hin. destruct (Forall2_in_right _ _ _ _ Hing Hin) as [k [Hk [s' [Hs' ->]]]].
    apply crossing_indices_spec in Hk as [j [-> Hj]].
    apply ing_mask_spec in Hj as [a [b [Ha [Hb [H1 H2]]]]].
    apply sample_ip_nth in Ha as [s [Hs <-]].
    apply sample_ip_nth in Hb as [s'' [Hs'' <-]].
    exists j, s, s'. rewrite Hs' in Hs''. injection Hs'' as <-. tauto.
  - intros [j [s [s' [Hs [Hs' [H1 [H2 ->]]]]]]].
    assert (Hk : In (S j) (crossing_indices (ing_mask radius (map sample_ip valid)))).
    { apply crossing_indices_spec. exists j. split; [reflexivity|].
      apply ing_mask_spec. exists (sample_ip s), (sample_ip s').
      repeat split; try assumption; apply sample_ip_nth; eauto. }
    destruct (Forall2_in_left _ _ _ _ Hing Hk) as [r [Hr [s'' [Hs'' ->]]]].
    rewrite Hs' in Hs''. injection Hs'' as <-. exact Hr.
  - intros Hin. destruct (Forall2_in_right _ _ _ _ Hegr Hin) as [k [Hk [s' [Hs' ->]]]].
    apply crossing_indices_spec in Hk as [j [-> Hj]].
    apply egr_mask_spec in Hj as [a [b [Ha [Hb [H1 H2]]]]].
    apply sample_ip_nth in Ha as [s [Hs <-]].
    apply sample_ip_nth in Hb as [s'' [Hs'' <-]].
    exists j, s, s'. rewrite Hs' in Hs''. injection Hs'' as <-. tauto.
  - intros [j [s [s' [Hs [Hs' [H1 [H2 ->]]]]]]].
    assert (Hk : In (S j) (crossing_indices (egr_mask radius (map sample_ip valid)))).
    { apply crossing_indices_spec. exists j. split; [reflexivity|].
      apply egr_mask_spec. exists (sample_ip s), (sample_ip s').
      repeat split; try assumption; apply sample_ip_nth; eauto. }
    destruct (Forall2_in_left _ _ _ _ Hegr Hk) as [r [Hr [s'' [Hs'' ->]]]].
    rewrite Hs' in Hs''. injection Hs'' as <-. exact Hr.
Qed.

(** An ingress event is reported exactly for each valid sample at or below
    the radius whose predecessor in the valid series is above it, and an
    egress event exactly for each valid sample above the radius whose
    predecessor is at or below it; the row carries the epoch, the tangent
    point coordinates, the solar zenith angle and the solar longitude of
    that sample, not of its predecessor. *)
Theorem events_are_crossings (radius : Q) (valid : list sample)
        (ingress egress : list event)
        (Hret : reduce_crossings E radius valid = Ok (ingress, egress)) :
  (forall e, In e ingress <->
     exists j s s', nth_error valid j = Some s /\ nth_error valid (S j) = Some s' /\
                    radius < sample_ip s /\ sample_ip s' <= radius /\
                    e = event_of E s') /\
  (forall e, In e egress <->
     exists j s s', nth_error valid j = Some s /\ nth_error valid (S j) = Some s' /\
                    sample_ip s <= radius /\ radius < sample_ip s' /\
                    e = event_of E s').
Proof. exact (reduce_crossings_events radius valid ingress egress Hret). Qed.

(** A series of valid samples that stays on one side of the radius gives
    two empty event tables, not an error. *)
Theorem no_crossing_no_events (radius : Q) (valid : list sample)
        (Hne : valid <> [])
        (Hside : (forall s, In s valid -> radius < sample_ip s) \/
                 (forall s, In s valid -> sample_ip s <= radius)) :
  reduce_crossings E radius valid = Ok ([], []).
Proof.
  destruct (reduce_crossings_ok E radius valid Hne) as [ing [egr Hret]].
  rewrite Hret.
  destruct (reduce_crossings_events radius valid ing egr Hret) as [Hing Hegr].
  assert (Hno : forall j (s s' : sample),
             nth_error valid j = Some s -> nth_error valid (S j) = Some s' ->
             (radius < sample_ip s /\ sample_ip s' <= radius) \/
             (sample_ip s <= radius /\ radius < sample_ip s') -> False).
  { intros j s s' Hs Hs' Hc.
    apply nth_error_In in Hs, Hs'.
    destruct Hside as [Hside|Hside];
      pose proof (Hside s Hs); pose proof (Hside s' Hs'); lra. }
  destruct ing as [|e1 ing].
  - destruct egr as [|e2 egr]; [reflexivity|]. exfalso.
    destruct (proj1 (Hegr e2) (or_introl eq_refl)) as [j [s [s' [Hs [Hs' [H1 [H2 _]]]]]]].
    apply (Hno j s s' Hs Hs'). right. now split.
  - exfalso.
    destruct (proj1 (Hing e1) (or_introl eq_refl)) as [j [s [s' [Hs [Hs' [H1 [H2 _]]]]]]].
    apply (Hno j s s' Hs Hs'). left. now split.
Qed.

End Events.

(** *** Ingress and egress take turns *)

Lemma where_from_after (i : nat) (mask : list bool) :
  Forall (lt i) (where_from (S i) mask).
Proof.
  eapply Forall_impl; [|apply where_from_bounds]. simpl. intros k Hk. lia.
Qed.

Lemma masks_alternate (radius : Q) (rest : list Q) :
  forall (a : Q) (i : nat),
    (leb a radius = false ->
     alternate (where_from i (ing_mask radius (a :: rest)))
               (where_from i (egr_mask radius (a :: rest)))) /\
    (leb a radius = true ->
     alternate (where_from i (egr_mask radius (a :: rest)))
               (where_from i (ing_mask radius (a :: rest)))).
Proof.
  induction rest as [|b rest IH]; intros a i.
  - split; intros _; constructor.
  - rewrite ing_mask_cons, egr_mask_cons, !gtb_leb.
    destruct (IH b (S i)) as [IHout IHin].
    destruct (leb a radius) eqn:Ea, (leb b radius) eqn:Eb;
      cbn [negb andb where_from]; split; intros H; try discriminate.
    + now apply IHin.
    + constructor; [apply where_from_after | now apply IHout].
    + constructor; [apply where_from_after | now apply IHin].
    + now apply IHout.
Qed.

Lemma alternate_map_S (xs ys : list nat) :
  alternate xs ys -> alternate (map S xs) (map S ys).
Proof.
  induction 1 as [|i xs ys Hall H IH]; simpl; constructor; [|exact IH].
  apply Forall_map. eapply Forall_impl; [|exact Hall]. simpl. intros k Hk. lia.
Qed.

Lemma alternate_nth (xs ys : list nat) :
  alternate xs ys ->
  (forall k x y, nth_error xs k = Some x -> nth_error ys k = Some y ->
                 (x < y)%nat) /\
  (forall k y x', nth_error ys k = Some y -> nth_error xs (S k) = Some x' ->
                  (y < x')%nat).
Proof.
  induction 1 as [|i xs ys Hall H [IH1 IH2]].
  - split; intros k x y Hx; destruct k; discriminate.
  - split.
    + intros [|k] x y Hx Hy.
      * injection Hx as <-. rewrite Forall_forall in Hall.
        apply Hall. eapply nth_error_In; eassumption.
      * simpl in Hx. now apply (IH2 k).
    + intros k y x' Hy Hx'. simpl in Hx'. now apply (IH1 k).
Qed.

Lemma alternate_length (xs ys : list nat) :
  alternate xs ys ->
  List.length xs = List.length ys \/ List.length xs = S (List.length ys).
Proof.
  induction 1 as [|i xs ys Hall H IH]; [now left|].
  simpl. destruct IH as [IH|IH]; [right | left]; lia.
Qed.

Lemma crossings_alternate (radius : Q) (a : Q) (rest : list Q) :
  (radius < a ->
   alternate (crossing_indices (ing_mask radius (a :: rest)))
             (crossing_indices (egr_mask radius (a :: rest)))) /\
  (a <= radius ->
   alternate (crossing_indices (egr_mask radius (a :: rest)))
             (crossing_indices (ing_mask radius (a :: rest)))).
Proof.
  unfold crossing_indices.
  destruct (masks_alternate radius rest a 0) as [Hout Hin]. split; intros H.
  - apply alternate_map_S, Hout. apply gtb_lt in H. rewrite gtb_leb in H.
    now apply negb_true_iff.
  - apply alternate_map_S, Hin. now apply leb_le.
Qed.

Lemma last_cons {A : Type} (rest : list A) :
  forall a b, last (b :: rest) a = last rest b.
Proof.
  induction rest as [|c rest IH]; intros a b; [reflexivity|].
  change (last (b :: c :: rest) a) with (last (c :: rest) a).
  now rewrite !IH.
Qed.

(** The number of crossings of each kind. *)
Lemma crossings_count (radius : Q) (rest : list Q) :
  forall (a : Q) (i : nat),
    (List.length (where_from i (ing_mask radius (a :: rest)))
     + Nat.b2n (leb a radius)
     = List.length (where_from i (egr_mask radius (a :: rest)))
       + Nat.b2n (leb (last rest a) radius))%nat.
Proof.
  induction rest as [|b rest IH]; intros a i; [reflexivity|].
  rewrite ing_mask_cons, egr_mask_cons, !gtb_leb.
  specialize (IH b (S i)).
  rewrite last_cons.
  destruct (leb a radius), (leb b radius);
    cbn [negb andb where_from List.length Nat.b2n] in *; lia.
Qed.

Lemma concat_axis1_nth {A B : Type} (l : list A) (r : list B) (k : nat) :
  nth_error (concat_axis1 l r) k
  = match nth_error l k, nth_error r k with
    | None, None => None
    | a, b => Some (a, b)
    end.
Proof.
  revert r k. induction l as [|a l IH]; intros r k.
  - cbn [concat_axis1]. rewrite nth_error_map.
    replace (nth_error (@nil A) k) with (@None A) by (now destruct k).
    now destruct (nth_error r k).
  - destruct r as [|b r].
    + cbn [concat_axis1]. rewrite nth_error_map.
      replace (nth_error (@nil B) k) with (@None B) by (now destruct k).
      now destruct (nth_error (a :: l) k).
    + destruct k as [|k]; [reflexivity|]. simpl. apply IH.
Qed.

Lemma Forall2_nth_right {A B : Type} (P : A -> B -> Prop) l r k y :
  Forall2 P l r -> nth_error r k = Some y ->
  exists x, nth_error l k = Some x /\ P x y.
Proof.
  intros H. revert k. induction H as [|x y' l r Hxy H IH]; intros k Hk.
  - destruct k; discriminate.
  - destruct k as [|k]; [injection Hk as <-; now exists x|].
    now apply IH.
Qed.

Lemma last_map {A B : Type} (f : A -> B) (l : list A) (d : A) :
  last (map f l) (f d) = f (last l d).
Proof.
  induction l as [|a [|b l] IH]; try reflexivity.
  change (last (map f (a :: b :: l)) (f d)) with (last (map f (b :: l)) (f d)).
  now rewrite IH.
Qed.

Section Alternation.
Context {vec : Type}.
Variable E : ephemeris vec.
Variable gs_id : string.

Lemma epoch_order (valid : list (@sample vec)) (x y : nat) (sx sy : sample) :
  StronglySorted Qlt (map sample_et valid) -> (x < y)%nat ->
  nth_error valid x = Some sx -> nth_error valid y = Some sy ->
  sample_et sx < sample_et sy.
Proof.
  intros Hs Hxy Hx Hy.
  apply (sorted_nth Qlt (map sample_et valid) Hs x y); [exact Hxy | |];
    now apply map_nth_error.
Qed.

Lemma rows_in_order (valid : list (@sample vec)) (idxA idxB : list nat)
      (rowsA rowsB : list event) (ka kb : nat) (a b : event) :
  StronglySorted Qlt (map sample_et valid) ->
  Forall2 (fun k r => exists s, nth_error valid k = Some s /\ r = event_of E s)
          idxA rowsA ->
  Forall2 (fun k r => exists s, nth_error valid k = Some s /\ r = event_of E s)
          idxB rowsB ->
  (forall x y, nth_error idxA ka = Some x -> nth_error idxB kb = Some y ->
               (x < y)%nat) ->
  nth_error rowsA ka = Some a -> nth_error rowsB kb = Some b -> ET a < ET b.
Proof.
  intros Hs HA HB Hlt Ha Hb.
  destruct (Forall2_nth_right _ _ _ _ _ HA Ha) as [x [Hx [sx [Hsx ->]]]].
  destruct (Forall2_nth_right _ _ _ _ _ HB Hb) as [y [Hy [sy [Hsy ->]]]].
  simpl. exact (epoch_order valid x y sx sy Hs (Hlt x y Hx Hy) Hsx Hsy).
Qed.

Lemma scan_epochs_increasing (start_et end_et step : Q) :
  0 < step ->
  StronglySorted Qlt
    (map sample_et (keep_valid (scan_results E gs_id (arange start_et end_et step)))).
Proof.
  intros Hstep. apply valid_epochs_sorted. now apply arange_steps_increasing.
Qed.

(** Along one series of valid samples the two kinds of crossing take
    turns, so the two event tables differ in length by at most one: the
    number of ingress events plus one if the first valid sample is inside
    equals the number of egress events plus one if the last one is. *)
Theorem crossings_balance (radius : Q) (s0 : sample) (rest : list sample)
        (ingress egress : list event)
        (Hret : reduce_crossings E radius (s0 :: rest) = Ok (ingress, egress)) :
  (List.length ingress + Nat.b2n (inside radius (sample_ip s0))
   = List.length egress + Nat.b2n (inside radius (sample_ip (last rest s0))))%nat /\
  (List.length ingress <= S (List.length egress))%nat /\
  (List.length egress <= S (List.length ingress))%nat.
Proof.
  apply reduce_crossings_rows in Hret as [_ [Hing Hegr]].
  apply Forall2_length in Hing, Hegr. rewrite <- Hing, <- Hegr.
  unfold crossing_indices. rewrite !length_map.
  pose proof (crossings_count radius (map sample_ip rest) (sample_ip s0) 0) as Hc.
  rewrite last_map in Hc. unfold inside. cbn [map] in *.
  split; [exact Hc|].
  destruct (leb (sample_ip s0) radius), (leb (sample_ip (last rest s0)) radius);
    cbn [Nat.b2n] in Hc; lia.
Qed.

(** Whatever list of epochs the scan is given, every event it returns
    sits at one of these epochs, one whose geometry did not fail and
    which is not the first of the valid series: the valid sample before
    it is at a given epoch too, at or before the event when the epochs are
    in non-decreasing order.  The solar longitude of the event is between
    0 and 360. *)
Theorem events_within_scan (et_list : list Q) (ingress egress : list event)
        (Hret : scan_epochs E gs_id et_list = Ok (ingress, egress))
        (e : event) (He : In e ingress \/ In e egress) :
  In (ET e) et_list /\
  ~ geometry_fails E gs_id (ET e) /\
  (exists j s s',
     nth_error (keep_valid (scan_results E gs_id et_list)) j = Some s /\
     nth_error (keep_valid (scan_results E gs_id et_list)) (S j) = Some s' /\
     e = event_of E s' /\
     In (sample_et s) et_list /\
     ~ geometry_fails E gs_id (sample_et s) /\
     (StronglySorted Qle et_list -> sample_et s <= ET e)) /\
  0 <= Ls e /\ Ls e <= 360.
Proof.
  unfold scan_epochs in Hret.
  set (valid := keep_valid (scan_results E gs_id et_list)) in *.
  destruct (reduce_crossings_events E _ _ _ _ Hret) as [Hing Hegr].
  assert (Hex : exists j s s', nth_error valid j = Some s /\
                               nth_error valid (S j) = Some s' /\ e = event_of E s').
  { destruct He as [He|He]; [apply Hing in He | apply Hegr in He];
      destruct He as [j [s [s' [H1 [H2 [_ [_ H3]]]]]]]; exists j, s, s'; tauto. }
  destruct Hex as [j [s [s' [Hj [Hj' ->]]]]]. cbn [event_of ET Ls].
  assert (Hin : forall k t, nth_error valid k = Some t ->
            In (sample_et t) et_list /\ ~ geometry_fails E gs_id (sample_et t)).
  { intros k t Hk.
    assert (Hv : In (sample_et t) (map sample_et valid))
      by (apply in_map; eapply nth_error_In; eassumption).
    apply valid_epochs_in in Hv as [Hv1 Hv2]. split; [exact Hv1|].
    intros Hf. apply Hv2. now apply compute_none_iff. }
  destruct (Hin j s Hj) as [Hs1 Hok1]. destruct (Hin (S j) s' Hj') as [Hs2 Hok2].
  pose proof (mod360_range (lspcn_deg E (sample_et s'))) as [Hl1 Hl2].
  split; [exact Hs2 | split; [exact Hok2 | split; [|split; [exact Hl1 | lra]]]].
  exists j, s, s'. repeat split; try assumption.
  intros Hsorted.
  apply (sorted_nth Qle (map sample_et valid)
           (valid_epochs_sorted E gs_id Qle et_list Hsorted) j (S j));
    [apply Nat.lt_succ_diag_r | |]; now apply map_nth_error.
Qed.

End Alternation.

(** *** The rows of the output table *)

Section WideTable.
Context {vec : Type}.
Variable E : ephemeris vec.
Variable gs_id : string.
Variables start_et end_et step : Q.
Hypothesis step_pos : 0 < step.

Let valid := keep_valid (scan_results E gs_id (arange start_et end_et step)).

Lemma table_rows (table : list (option event * option event)) :
  df_wide E gs_id start_et end_et step = Ok table ->
  exists ingress egress,
    table = concat_axis1 ingress egress /\
    Forall2 (fun k r => exists s, nth_error valid k = Some s /\ r = event_of E s)
            (crossing_indices (ing_mask MARS_RADIUS (map sample_ip valid))) ingress /\
    Forall2 (fun k r => exists s, nth_error valid k = Some s /\ r = event_of E s)
            (crossing_indices (egr_mask MARS_RADIUS (map sample_ip valid))) egress.
Proof.
  unfold df_wide, find_occultations_parallel, scan_epochs. fold valid.
  destruct (reduce_crossings E MARS_RADIUS valid) as [[ing egr]|e] eqn:Hret;
    [|discriminate].
  cbn [bind fst snd]. intros H. injection H as <-.
  apply reduce_crossings_rows in Hret as [_ [Hing Hegr]].
  exists ing, egr. now repeat split.
Qed.

Lemma row_cells {A B : Type} (l : list A) (r : list B) (k : nat) oa ob :
  nth_error (concat_axis1 l r) k = Some (oa, ob) ->
  nth_error l k = oa /\ nth_error r k = ob.
Proof.
  rewrite concat_axis1_nth.
  destruct (nth_error l k), (nth_error r k); intros H;
    try discriminate; injection H as <- <-; now split.
Qed.

(** When the first valid sample of the scan is outside the body, every
    row of the output table is an occultation: its ingress precedes its
    egress, its egress precedes the ingress of the next row, and no row has
    an egress without an ingress. *)
Theorem rows_pair_when_scan_starts_outside
        (table : list (option event * option event))
        (s0 : sample) (rest : list sample)
        (Hvalid : keep_valid (scan_results E gs_id (arange start_et end_et step))
                  = s0 :: rest)
        (Hfirst : MARS_RADIUS < sample_ip s0)
        (Htable : df_wide E gs_id start_et end_et step = Ok table) :
  (forall k i e, nth_error table k = Some (Some i, Some e) -> ET i < ET e) /\
  (forall k oi e i' oe, nth_error table k = Some (oi, Some e) ->
                        nth_error table (S k) = Some (Some i', oe) -> ET e < ET i') /\
  (forall k e, nth_error table k <> Some (None, Some e)).
Proof.
  destruct (table_rows table Htable) as [ing [egr [-> [Hing Hegr]]]].
  pose proof (scan_epochs_increasing E gs_id start_et end_et step step_pos) as Hs.
  fold valid in Hs, Hvalid. rewrite Hvalid in Hing, Hegr. cbn [map] in Hing, Hegr.
  rewrite <- Hvalid in Hing, Hegr.
  destruct (crossings_alternate MARS_RADIUS (sample_ip s0) (map sample_ip rest))
    as [Halt _]. specialize (Halt Hfirst).
  destruct (alternate_nth _ _ Halt) as [H1 H2].
  split; [|split].
  - intros k i e Hrow. apply row_cells in Hrow as [Hi He].
    exact (rows_in_order E valid _ _ _ _ k k i e Hs Hing Hegr (H1 k) Hi He).
  - intros k oi e i' oe Hrow Hnext.
    apply row_cells in Hrow as [_ He]. apply row_cells in Hnext as [Hi' _].
    refine (rows_in_order E valid _ _ _ _ k (S k) e i' Hs Hegr Hing _ He Hi').
    intros x y Hx Hy. exact (H2 k x y Hx Hy).
  - intros k e Hrow. apply row_cells in Hrow as [Hi He].
    apply nth_error_None in Hi.
    assert (He' : nth_error egr k <> None) by congruence.
    apply nth_error_Some in He'.
    apply Forall2_length in Hing, Hegr.
    destruct (alternate_length _ _ Halt) as [Hl|Hl]; lia.
Qed.

(** When the first valid sample is inside the body, the table is shifted:
    every row pairs an ingress with the egress that precedes it, and no row
    has an ingress without an egress. *)
Theorem rows_shift_when_scan_starts_inside
        (table : list (option event * option event))
        (s0 : sample) (rest : list sample)
        (Hvalid : keep_valid (scan_results E gs_id (arange start_et end_et step))
                  = s0 :: rest)
        (Hfirst : sample_ip s0 <= MARS_RADIUS)
        (Htable : df_wide E gs_id start_et end_et step = Ok table) :
  (forall k i e, nth_error table k = Some (Some i, Some e) -> ET e < ET i) /\
  (forall k i, nth_error table k <> Some (Some i, None)).
Proof.
  destruct (table_rows table Htable) as [ing [egr [-> [Hing Hegr]]]].
  pose proof (scan_epochs_increasing E gs_id start_et end_et step step_pos) as Hs.
  fold valid in Hs, Hvalid. rewrite Hvalid in Hing, Hegr. cbn [map] in Hing, Hegr.
  rewrite <- Hvalid in Hing, Hegr.
  destruct (crossings_alternate MARS_RADIUS (sample_ip s0) (map sample_ip rest))
    as [_ Halt]. specialize (Halt Hfirst).
  destruct (alternate_nth _ _ Halt) as [H1 _].
  split.
  - intros k i e Hrow. apply row_cells in Hrow as [Hi He].
    exact (rows_in_order E valid _ _ _ _ k k e i Hs Hegr Hing (H1 k) He Hi).
  - intros k i Hrow. apply row_cells in Hrow as [Hi He].
    apply nth_error_None in He.
    assert (Hi' : nth_error ing k <> None) by congruence.
    apply nth_error_Some in Hi'.
    apply Forall2_length in Hing, Hegr.
    destruct (alternate_length _ _ Halt) as [Hl|Hl]; lia.
Qed.

End WideTable.

(** The pool returns the results in the order of submission whatever the
    chunk size, so the scan does not depend on how the epochs are cut into
    chunks. *)
Theorem pool_keeps_submission_order {A B : Type} (fn : A -> B) (iterable : list A)
        (chunksize : nat) (Hchunk : (0 < chunksize)%nat) :
  executor_map fn iterable chunksize = map fn iterable /\
  List.concat (get_chunks (List.length iterable) chunksize iterable) = iterable /\
  Forall (fun chunk => (List.length chunk <= chunksize)%nat)
         (get_chunks (List.length iterable) chunksize iterable).
Proof.
  split; [now apply executor_map_eq|].
  split; [apply get_chunks_concat; [exact Hchunk | apply Nat.le_refl]|].
  generalize (List.length iterable) as fuel. intros fuel. revert iterable.
  induction fuel as [|fuel IH]; intros l; [constructor|].
  destruct l as [|a l]; [constructor|]. cbn [get_chunks].
  constructor; [|apply IH]. rewrite length_firstn. apply Nat.le_min_l.
Qed.

(** *** The scenario data *)

Local Open Scope string_scope.

Lemma events_are_crossings_witness :
  exists ingress egress,
    reduce_crossings toy_ephemeris MARS_RADIUS
      [(0, 4000, 4000, 90); (1, 0, 0, 90)] = Ok (ingress, egress) /\
    In (event_of toy_ephemeris (1, 0, 0, 90)) ingress.
Proof.
  eexists. eexists. split; [reflexivity|].
  apply (proj1 (events_are_crossings toy_ephemeris MARS_RADIUS
                  [(0, 4000, 4000, 90); (1, 0, 0, 90)] _ _ eq_refl)).
  exists O, (0, 4000, 4000, 90), (1, 0, 0, 90).
  repeat split; reflexivity || discriminate.
Defined.

Lemma no_crossing_no_events_witness :
  reduce_crossings toy_ephemeris MARS_RADIUS
    [(0, 4000, 4000, 90); (1, 5000, 5000, 90)] = Ok ([], []).
Proof.
  apply no_crossing_no_events; [discriminate|].
  left. intros s [<-|[<-|[]]]; reflexivity.
Defined.

Lemma crossings_balance_witness :
  exists ingress egress,
    reduce_crossings toy_ephemeris MARS_RADIUS
      [(0, 4000, 4000, 90); (1, 0, 0, 90); (2, 4000, 4000, 90); (3, 0, 0, 90)]
    = Ok (ingress, egress) /\
    (List.length ingress <= S (List.length egress))%nat /\
    (List.length egress <= S (List.length ingress))%nat.
Proof.
  eexists. eexists. split; [reflexivity|].
  apply (proj2 (crossings_balance toy_ephemeris MARS_RADIUS (0, 4000, 4000, 90)
                  [(1, 0, 0, 90); (2, 4000, 4000, 90); (3, 0, 0, 90)] _ _ eq_refl)).
Defined.

Lemma events_within_scan_witness :
  exists ingress egress e,
    scan_epochs toy_ephemeris "399" [0; 1; 2; 3; 4] = Ok (ingress, egress) /\
    In e ingress /\ In (ET e) [0; 1; 2; 3; 4] /\ Ls e <= 360.
Proof.
  destruct (scan_epochs toy_ephemeris "399" [0; 1; 2; 3; 4])
    as [[ingress egress]|err] eqn:Hret; [|vm_compute in Hret; discriminate].
  destruct ingress as [|e ingress]; [vm_compute in Hret; discriminate|].
  pose proof (events_within_scan toy_ephemeris "399" [0; 1; 2; 3; 4]
                (e :: ingress) egress Hret e (or_introl (or_introl eq_refl))) as H.
  exists (e :: ingress), egress, e.
  split; [reflexivity | split; [now left | tauto]].
Defined.

Lemma rows_pair_when_scan_starts_outside_witness :
  exists table i e,
    df_wide toy_ephemeris "399" 0 5 1 = Ok table /\
    nth_error table 0 = Some (Some i, Some e) /\ ET i < ET e.
Proof.
  destruct (df_wide toy_ephemeris "399" 0 5 1) as [table|err] eqn:Htable;
    [|vm_compute in Htable; discriminate].
  assert (Hrows : forall k i e,
            nth_error table k = Some (Some i, Some e) -> ET i < ET e).
  { refine (proj1 (rows_pair_when_scan_starts_outside toy_ephemeris "399" 0 5 1
                     eq_refl table (0, 12000, 12000, 90) _ _ _ Htable)).
    - vm_compute. reflexivity.
    - reflexivity. }
  destruct table as [|[[i|] [e|]] table];
    try (vm_compute in Htable; discriminate).
  exists ((Some i, Some e) :: table), i, e.
  split; [reflexivity | split; [reflexivity|]].
  now apply (Hrows O).
Defined.

Lemma rows_shift_when_scan_starts_inside_witness :
  exists table e,
    df_wide toy_ephemeris "399" 3 6 1 = Ok table /\
    nth_error table 0 = Some (None, Some e) /\
    nth_error table 1 <> Some (Some e, None).
Proof.
  destruct (df_wide toy_ephemeris "399" 3 6 1) as [table|err] eqn:Htable;
    [|vm_compute in Htable; discriminate].
  assert (Hrows : forall k i, nth_error table k <> Some (Some i, None)).
  { refine (proj2 (rows_shift_when_scan_starts_inside toy_ephemeris "399" 3 6 1
                     eq_refl table (3, 0, 0, 90) _ _ _ Htable)).
    - vm_compute. reflexivity.
    - discriminate. }
  destruct table as [|[[i|] [e|]] table];
    try (vm_compute in Htable; discriminate).
  exists ((None, Some e) :: table), e.
  split; [reflexivity | split; [reflexivity | apply Hrows]].
Defined.

Lemma pool_keeps_submission_order_witness :
  executor_map S [1; 2; 3; 4; 5]%nat 2 = [2; 3; 4; 5; 6]%nat.
Proof.
  apply (pool_keeps_submission_order S [1; 2; 3; 4; 5]%nat 2). lia.
Defined.

End DetectorExtra.

(** ** Event aligner: scope, ties, order and the meaning of the statistic *)

Module AlignerExtra.
Import Py Aligner Statistic AlignerProofs.
Local Open Scope Z_scope.

Lemma sorted_keys_rows (df : list spice_row) :
  StronglySorted Z.le (map Ingress_UTC df) <->
  StronglySorted (fun a b => Ingress_UTC a <= Ingress_UTC b) df.
Proof.
  induction df as [|d rest IH]; simpl; split; intros H; try constructor;
    apply StronglySorted_inv in H as [Hs Hall].
  - now apply IH.
  - rewrite Forall_forall in *. intros x Hx. apply Hall. now apply in_map.
  - now apply IH.
  - apply Forall_map. exact Hall.
Qed.

Lemma in_scope_sorted (df : list spice_row) :
  sortedb (map Ingress_UTC df) = true ->
  sortedb (map Ingress_UTC (in_scope df)) = true.
Proof.
  rewrite !sortedb_sorted, !sorted_keys_rows. unfold in_scope.
  induction 1 as [|d rest Hs IH Hall]; simpl; [constructor|].
  destruct ((scope_lo <=? Ingress_UTC d) && (Ingress_UTC d <? scope_hi));
    [|exact IH].
  constructor; [exact IH|]. rewrite Forall_forall in *.
  intros x Hx. apply Hall. now apply filter_In in Hx.
Qed.

(** The scope filter keeps the rows from 2023-01-01 on and before
    2025-01-01 in their order: applied twice it changes nothing, and a file
    sorted by ingress stays sorted, so with a sorted reported table the
    join does not refuse its keys. *)
Theorem scope_filter_keeps_order
        (spice_file : list spice_row) (df_obsweb : list obsweb_row)
        (Hfile : sortedb (map Ingress_UTC spice_file) = true)
        (Hobs : sortedb (map ingress df_obsweb) = true) :
  Forall (fun r => scope_lo <= Ingress_UTC r < scope_hi) (in_scope spice_file) /\
  in_scope (in_scope spice_file) = in_scope spice_file /\
  sortedb (map Ingress_UTC (in_scope spice_file)) = true /\
  align spice_file df_obsweb <> Raise ValueError.
Proof.
  assert (Hrange : Forall (fun r => scope_lo <= Ingress_UTC r < scope_hi)
                          (in_scope spice_file)).
  { apply Forall_forall. intros r Hr. apply filter_In in Hr as [_ Hr].
    apply andb_true_iff in Hr as [H1 H2].
    apply Z.leb_le in H1. apply Z.ltb_lt in H2. now split. }
  pose proof (in_scope_sorted spice_file Hfile) as Hs.
  split; [exact Hrange | split; [|split; [exact Hs|]]].
  - unfold in_scope at 1. apply forallb_filter_id. apply forallb_forall.
    intros r Hr. rewrite Forall_forall in Hrange. specialize (Hrange r Hr).
    apply andb_true_iff. split; [apply Z.leb_le | apply Z.ltb_lt]; lia.
  - unfold align. destruct (untyped spice_file || untyped df_obsweb);
      [discriminate|].
    unfold align_frames. rewrite (merge_asof_sorted _ _ _ Hs Hobs). cbn [bind].
    unfold coverage_pct, truediv.
    destruct (List.length (in_scope spice_file)); cbn [bind]; discriminate.
Qed.

Lemma scope_filter_keeps_order_witness :
  align [spice_at 0; spice_at t2024; spice_at (t2024 + 10 * tolerance)]
        [obsweb_at t2024] <> Raise ValueError.
Proof.
  apply (scope_filter_keeps_order
           [spice_at 0; spice_at t2024; spice_at (t2024 + 10 * tolerance)]
           [obsweb_at t2024]); reflexivity.
Defined.

(** *** Ties and order *)

(** A reported event after the derived time is chosen only when it is
    strictly nearer than every reported event at or before that time: on
    equal distance the earlier event wins. *)
Theorem later_match_is_strictly_nearer
        (tol : Z) (right : list obsweb_row) (key : Z) (r0 : obsweb_row)
        (Hsorted : sortedb (map ingress right) = true)
        (Hmatch : asof_nearest tol right key = Some r0)
        (Hlater : key < ingress r0) :
  forall r, In r right -> ingress r <= key -> distance key r0 < distance key r.
Proof.
  assert (Hs : StronglySorted by_ingress right)
    by now apply sorted_rows, sortedb_sorted.
  pose proof (backward_search key right Hs) as Hb.
  pose proof (forward_search key right Hs) as Hf.
  revert Hmatch. unfold asof_nearest, asof_backward, asof_forward, within, distance.
  destruct (scan_while (fun k => k <=? key) right None) as [rb|];
    destruct (scan_while (fun k => key <=? k) (rev right) None) as [rf|];
    cbn [backward_found forward_found] in Hb, Hf.
  - destruct Hb as [Hinb [Hleb Hmax]]. destruct Hf as [Hinf [Hlef Hmin]].
    destruct (tol <? key - ingress rb) eqn:Eb;
      destruct (tol <? ingress rf - key) eqn:Ef;
      try destruct (key - ingress rb <=? ingress rf - key) eqn:En;
      rewrite ?Z.ltb_lt, ?Z.ltb_ge, ?Z.leb_le, ?Z.leb_gt in *;
      intros Hm; try discriminate; injection Hm as <-;
      intros r Hr Hle; specialize (Hmax r Hr Hle); lia.
  - destruct Hb as [Hinb [Hleb Hmax]].
    destruct (tol <? key - ingress rb) eqn:Eb;
      intros Hm; try discriminate; injection Hm as <-; lia.
  - destruct Hf as [Hinf [Hlef Hmin]].
    destruct (tol <? ingress rf - key) eqn:Ef;
      intros Hm; try discriminate; injection Hm as <-.
    intros r Hr Hle. specialize (Hb r Hr). lia.
  - discriminate.
Qed.

Lemma later_match_is_strictly_nearer_witness :
  distance (t2024 + 20) (obsweb_at (t2024 + 30))
  < distance (t2024 + 20) (obsweb_at t2024).
Proof.
  apply (later_match_is_strictly_nearer tolerance
           [obsweb_at t2024; obsweb_at (t2024 + 30)] (t2024 + 20)
           (obsweb_at (t2024 + 30))).
  - reflexivity.
  - reflexivity.
  - reflexivity.
  - now left.
  - unfold obsweb_at, t2024. simpl. lia.
Defined.

(** On a tie the earlier of the two reported events is the match. *)
Example tie_goes_to_earlier :
  asof_nearest tolerance [obsweb_at t2024; obsweb_at (t2024 + 30)] (t2024 + 15)
  = Some (obsweb_at t2024).
Proof. reflexivity. Qed.

Lemma nearest_monotone (tol : Z) (right : list obsweb_row) (k1 k2 : Z)
      (r1 r2 : obsweb_row) :
  StronglySorted by_ingress right ->
  asof_nearest tol right k1 = Some r1 -> asof_nearest tol right k2 = Some r2 ->
  k1 <= k2 -> ingress r1 <= ingress r2.
Proof.
  intros Hs H1 H2 Hk.
  pose proof (asof_nearest_spec tol right k1 Hs) as S1.
  pose proof (asof_nearest_spec tol right k2 Hs) as S2.
  rewrite H1 in S1. rewrite H2 in S2.
  destruct S1 as [In1 [_ N1]]. destruct S2 as [In2 [_ N2]].
  specialize (N1 r2 In2). specialize (N2 r1 In1). unfold distance in *.
  destruct (Z.eq_dec k1 k2) as [->|Hne]; [|lia].
  rewrite H1 in H2. injection H2 as <-. lia.
Qed.

Lemma aligned_sorted (tol : Z) (left : list spice_row) (right : list obsweb_row) :
  StronglySorted (fun a b => Ingress_UTC a <= Ingress_UTC b) left ->
  StronglySorted by_ingress right ->
  StronglySorted
    (fun a b => Ingress_UTC (fst a) <= Ingress_UTC (fst b) /\
                ingress (snd a) <= ingress (snd b))
    (dropna (map (fun l => (l, asof_nearest tol right (Ingress_UTC l))) left)).
Proof.
  intros Hl Hr. induction Hl as [|d rest Hs IH Hall]; simpl; [constructor|].
  destruct (asof_nearest tol right (Ingress_UTC d)) as [r|] eqn:Hd; [|exact IH].
  constructor; [exact IH|]. apply Forall_forall. intros [d' r'] Hin.
  apply in_aligned in Hin as [Hd' Hr']. rewrite Forall_forall in Hall.
  specialize (Hall d' Hd'). simpl. split; [exact Hall|].
  exact (nearest_monotone tol right _ _ r r' Hr Hd Hr' Hall).
Qed.

(** The aligned table keeps the derived events in their order, and the
    reported events it pairs them with are in non-decreasing order of
    ingress too: the matches never cross. *)
Theorem aligned_matches_never_cross
        (spice_file : list spice_row) (df_obsweb : list obsweb_row)
        (merged : list (spice_row * obsweb_row)) (pct : Q)
        (Halign : align spice_file df_obsweb = Ok (merged, pct)) :
  StronglySorted Z.le (map (fun x => Ingress_UTC (fst x)) merged) /\
  StronglySorted Z.le (map (fun x => ingress (snd x)) merged).
Proof.
  apply align_merged in Halign as [joined [Hj ->]].
  unfold merge_asof in Hj.
  destruct (sortedb (map Ingress_UTC (in_scope spice_file))) eqn:Hl;
    [|discriminate].
  destruct (sortedb (map ingress df_obsweb)) eqn:Hr; [|discriminate].
  cbn [negb] in Hj. injection Hj as <-.
  apply sortedb_sorted, sorted_keys_rows in Hl.
  apply sortedb_sorted, sorted_rows in Hr.
  pose proof (aligned_sorted tolerance _ _ Hl Hr) as Hs.
  induction Hs as [|x l Hs IH Hall]; simpl; split; constructor;
    try (now apply IH); apply Forall_map;
    (eapply Forall_impl; [|exact Hall]); simpl; tauto.
Qed.

Lemma aligned_matches_never_cross_witness :
  exists merged pct,
    align [spice_at t2024; spice_at (t2024 + 20)]
          [obsweb_at (t2024 + 5); obsweb_at (t2024 + 30)] = Ok (merged, pct) /\
    StronglySorted Z.le (map (fun x => ingress (snd x)) merged).
Proof.
  eexists. eexists. split; [reflexivity|].
  eapply (aligned_matches_never_cross
            [spice_at t2024; spice_at (t2024 + 20)]
            [obsweb_at (t2024 + 5); obsweb_at (t2024 + 30)]).
  reflexivity.
Defined.

(** *** The statistic *)

Lemma near_iff (tol : Z) (right : list obsweb_row) (key : Z) :
  StronglySorted by_ingress right ->
  (near tol right key = true <-> asof_nearest tol right key <> None).
Proof.
  intros Hs. pose proof (asof_nearest_spec tol right key Hs) as Hn.
  unfold near. rewrite existsb_exists.
  destruct (asof_nearest tol right key) as [r0|].
  - destruct Hn as [Hin [Hle _]]. split; [discriminate|]. intros _.
    exists r0. split; [exact Hin | now apply Z.leb_le].
  - split; [|congruence]. intros [r [Hin Hle]]. apply Z.leb_le in Hle.
    specialize (Hn r Hin). lia.
Qed.

Lemma aligned_count (tol : Z) (left : list spice_row) (right : list obsweb_row) :
  StronglySorted by_ingress right ->
  List.length (dropna (map (fun l => (l, asof_nearest tol right (Ingress_UTC l)))
                           left))
  = List.length (filter (fun l => near tol right (Ingress_UTC l)) left).
Proof.
  intros Hs. induction left as [|d rest IH]; [reflexivity|]. simpl.
  pose proof (near_iff tol right (Ingress_UTC d) Hs) as Hn.
  destruct (asof_nearest tol right (Ingress_UTC d)) as [r|].
  - rewrite (proj2 Hn) by discriminate. simpl. now rewrite IH.
  - destruct (near tol right (Ingress_UTC d)); [|exact IH].
    exfalso. now apply (proj1 Hn).
Qed.

(** When the script reaches its statistic, the percentage is one hundred
    times the share of the derived events in scope that have a reported
    event within sixty seconds of their ingress; it lies between 0 and 100,
    and the aligned table has one row for each such event. *)
Theorem coverage_pct_counts_near_events
        (spice_file : list spice_row) (df_obsweb : list obsweb_row)
        (merged : list (spice_row * obsweb_row)) (pct : Q)
        (Halign : align spice_file df_obsweb = Ok (merged, pct)) :
  let df_spice := in_scope spice_file in
  let matched :=
    filter (fun d => near tolerance df_obsweb (Ingress_UTC d)) df_spice in
  map fst merged = matched /\
  (pct == inject_Z (Z.of_nat (List.length matched))
          / inject_Z (Z.of_nat (List.length df_spice)) * 100)%Q /\
  (0 <= pct)%Q /\ (pct <= 100)%Q.
Proof.
  intros df_spice matched. apply align_returns in Halign.
  revert Halign. unfold align_frames. fold df_spice.
  unfold merge_asof.
  destruct (sortedb (map Ingress_UTC df_spice)) eqn:Hl; [|discriminate].
  destruct (sortedb (map ingress df_obsweb)) eqn:Hr; [|discriminate].
  cbn [negb bind]. unfold coverage_pct, truediv. rewrite length_map.
  apply sortedb_sorted, sorted_rows in Hr.
  rewrite (aligned_count tolerance df_spice df_obsweb Hr). fold matched.
  destruct (List.length df_spice) as [|n] eqn:Hn; [discriminate|].
  cbn [bind]. intros H. injection H as <- <-.
  assert (Hfst : map fst (dropna (map (fun l => (l, asof_nearest tolerance df_obsweb
                                                     (Ingress_UTC l))) df_spice))
                 = matched).
  { unfold matched. clear Hn Hl. induction df_spice as [|d rest IH]; [reflexivity|].
    simpl. pose proof (near_iff tolerance df_obsweb (Ingress_UTC d) Hr) as Hnear.
    destruct (asof_nearest tolerance df_obsweb (Ingress_UTC d)) as [r|].
    - rewrite (proj2 Hnear) by discriminate. simpl. now rewrite IH.
    - destruct (near tolerance df_obsweb (Ingress_UTC d)); [|exact IH].
      exfalso. now apply (proj1 Hnear). }
  split; [exact Hfst | split; [reflexivity|]].
  assert (Hle : (List.length matched <= S n)%nat).
  { rewrite <- Hn. unfold matched. apply filter_length_le. }
  assert (Hpos : (0 < inject_Z (Z.of_nat (S n)))%Q).
  { change 0%Q with (inject_Z 0). rewrite <- Zlt_Qlt. lia. }
  assert (Hm0 : (0 <= inject_Z (Z.of_nat (List.length matched)))%Q).
  { change 0%Q with (inject_Z 0). rewrite <- Zle_Qle. lia. }
  assert (Hm1 : (inject_Z (Z.of_nat (List.length matched))
                 <= inject_Z (Z.of_nat (S n)))%Q).
  { rewrite <- Zle_Qle. lia. }
  set (m := inject_Z (Z.of_nat (List.length matched))) in *.
  set (t := inject_Z (Z.of_nat (S n))) in *.
  assert (Hq0 : (0 <= m / t)%Q).
  { apply Qle_shift_div_l; [exact Hpos|]. lra. }
  assert (Hq1 : (m / t <= 1)%Q).
  { apply Qle_shift_div_r; [exact Hpos|]. lra. }
  change (inject_Z (Z.pos (Pos.of_succ_nat n))) with t.
  set (q := (m / t)%Q) in *. clearbody q. split; lra.
Qed.

Lemma coverage_pct_counts_near_events_witness :
  exists merged pct,
    align [spice_at t2024; spice_at (t2024 + 10 * tolerance)] [obsweb_at t2024]
    = Ok (merged, pct) /\
    map fst merged = [spice_at t2024] /\ (pct <= 100)%Q.
Proof.
  eexists. eexists. split; [reflexivity|].
  pose proof (coverage_pct_counts_near_events
                [spice_at t2024; spice_at (t2024 + 10 * tolerance)]
                [obsweb_at t2024] _ _ eq_refl) as [H1 [_ [_ H2]]].
  split; [exact H1 | exact H2].
Defined.

End AlignerExtra.
